(** * Brush: pixel/index mapping and the traveller state machine

    A shallow embedding of [src/cartesian/Brush.tsx]: the binary search
    [getIndexInRange], the snapping [getIndex], the point scale built by
    [createScale], and the pointer / keyboard handlers of [RedoBrush].

    JavaScript numbers are modelled exactly: array indices and [gap] are
    integers ([Z]), pixel coordinates are rationals ([Q]).  Comparisons,
    [Math.min] and [Math.max] are the same on the source's doubles; sums and
    differences are the same on pixel values (whole numbers of moderate
    size), and the statements that rest on a computed sum are made for
    those.  Reading an array outside its bounds yields [undefined],
    modelled by [None]; a comparison against [undefined] is [false], as in
    JavaScript. *)

From Equations Require Import Equations.
From Stdlib Require Import String.
From Stdlib Require Import ZArith QArith Qminmax Qabs List Bool Lia Lqa.
Import ListNotations.

Local Open Scope Z_scope.

(** ** JavaScript primitives used by the source *)

Module Js.

(** [arr[i]]: [undefined] outside [0 .. length - 1]. *)
Definition get {A : Type} (arr : list A) (i : Z) : option A :=
  if i <? 0 then None else nth_error arr (Z.to_nat i).

(** [arr.length] *)
Definition length {A : Type} (arr : list A) : Z := Z.of_nat (List.length arr).

(** [a > x] where [a] may be [undefined]. *)
Definition gt (a : option Q) (x : Q) : bool :=
  match a with
  | Some v => negb (Qle_bool v x)
  | None => false
  end.

(** [x >= a] where [a] may be [undefined]. *)
Definition ge (x : Q) (a : option Q) : bool :=
  match a with
  | Some v => Qle_bool v x
  | None => false
  end.

(** [a < b], [a <= b], [a === b] on defined numbers. *)
Definition ltb (a b : Q) : bool := negb (Qle_bool b a).
Definition leb (a b : Q) : bool := Qle_bool a b.
Definition eqb (a b : Q) : bool := Qeq_bool a b.

(** [Math.floor((a + b) / 2)] on integers. *)
Definition floor_half (a b : Z) : Z := (a + b) / 2.

(** [a % b]: the remainder takes the sign of the dividend. *)
Definition rem (a b : Z) : Z := Z.rem a b.

(** [arr.indexOf(v)]: first position holding [v], or [-1]. *)
Fixpoint indexOf_from (arr : list Q) (v : Q) (i : Z) : Z :=
  match arr with
  | [] => -1
  | a :: rest => if eqb a v then i else indexOf_from rest v (i + 1)
  end.

Definition indexOf (arr : list Q) (v : Q) : Z := indexOf_from arr v 0.

End Js.

(** ** getIndexInRange *)

(** The pair [(start, end)] of the search. *)
Definition Bracket : Type := (Z * Z)%type.

(** One pass through the body of the [while] loop. *)
Definition loop_body (valueRange : list Q) (x : Q) (b : Bracket) : Bracket :=
  let '(start, end_) := b in
  let middle := Js.floor_half start end_ in
  if Js.gt (Js.get valueRange middle) x then (start, middle) else (middle, end_).

(** The loop condition [end - start > 1]. *)
Definition loop_cond (b : Bracket) : bool := snd b - fst b >? 1.

(** The [while] loop with an explicit bound on the number of iterations:
    [None] means the bound was reached with the condition still true. *)
Fixpoint while_loop (fuel : nat) (valueRange : list Q) (x : Q) (b : Bracket)
  : option Bracket :=
  if loop_cond b then
    match fuel with
    | O => None
    | S fuel' => while_loop fuel' valueRange x (loop_body valueRange x b)
    end
  else Some b.

(** The same loop as a total function, by recursion on [end - start]. *)
Equations? search (valueRange : list Q) (x : Q) (start end_ : Z) : Bracket
  by wf (Z.to_nat (end_ - start)) lt :=
  search valueRange x start end_ with Z_gt_dec (end_ - start) 1 => {
    | left _ with Js.gt (Js.get valueRange (Js.floor_half start end_)) x => {
        | true := search valueRange x start (Js.floor_half start end_);
        | false := search valueRange x (Js.floor_half start end_) end_ };
    | right _ := (start, end_) }.
Proof.
  all: unfold Js.floor_half; Z.div_mod_to_equations; lia.
Qed.

(** The [return] statement applied to the final bracket. *)
Definition pick (valueRange : list Q) (x : Q) (b : Bracket) : Z :=
  if Js.ge x (Js.get valueRange (snd b)) then snd b else fst b.

Definition getIndexInRange (valueRange : list Q) (x : Q) : Z :=
  let len := Js.length valueRange in
  pick valueRange x (search valueRange x 0 (len - 1)).

(** ** getIndex *)

Record BrushStartEndIndex : Set := mkIndex { startIndex : Z; endIndex : Z }.

Definition getIndex {A : Type} (startX endX : Q) (scaleValues : list Q)
  (gap : Z) (data : list A) : BrushStartEndIndex :=
  let lastIndex := Js.length data - 1 in
  let min := Qmin startX endX in
  let max := Qmax startX endX in
  let minIndex := getIndexInRange scaleValues min in
  let maxIndex := getIndexInRange scaleValues max in
  {| startIndex := minIndex - Js.rem minIndex gap;
     endIndex := if maxIndex =? lastIndex
                 then lastIndex
                 else maxIndex - Js.rem maxIndex gap |}.

(** ** createScale *)

(** lodash [range(start, end)]: the integers [start, start + 1, ..., end - 1]. *)
Definition range (start end_ : Z) : list Z :=
  map (fun k => start + Z.of_nat k) (seq 0 (Z.to_nat (end_ - start))).

(** Modelled from the spec: [scalePoint] is imported from the d3-scale
    package ([victory-vendor/d3-scale]), whose code is not among the sources.
    The spec asks for "point-scale semantics (first point at range start,
    last at range end, equal spacing between)".  The definitions below
    follow the package's point scale (a band scale with inner padding 1,
    outer padding 0, alignment 1/2 and no rounding): the domain holds the
    points, the range the two pixel ends. *)
Record ScalePoint : Type := mkScale { sp_domain : list Z; sp_range : Q * Q }.

(** Modelled from the spec: the positions a point scale assigns to its
    domain, in domain order.  [step] is the distance between neighbours;
    with a single point the whole range is slack and the alignment 1/2 puts
    the point in its middle. *)
Definition sp_values (sc : ScalePoint) : list Q :=
  let n := Js.length (sp_domain sc) in
  let '(r0, r1) := sp_range sc in
  let reverse := Js.ltb r1 r0 in
  let start := if reverse then r1 else r0 in
  let stop := if reverse then r0 else r1 in
  let step := ((stop - start) / inject_Z (Z.max 1 (n - 1)))%Q in
  let start' := (start + (stop - start - step * inject_Z (n - 1)) * (1 # 2))%Q in
  let values := map (fun i => (start' + step * inject_Z i)%Q) (range 0 n) in
  if reverse then rev values else values.

(** Position of [d] in the domain, or [-1]. *)
Fixpoint domain_index_from (dom : list Z) (d : Z) (i : Z) : Z :=
  match dom with
  | [] => -1
  | a :: rest => if a =? d then i else domain_index_from rest d (i + 1)
  end.

(** Modelled from the spec: applying the scale, [scale(d)]; a value outside
    the domain has no position ([undefined]). *)
Definition sp_apply (sc : ScalePoint) (d : Z) : option Q :=
  let i := domain_index_from (sp_domain sc) d 0 in
  if i =? -1 then None else Js.get (sp_values sc) i.

(** [arr.map(f)] where [f] may yield [undefined]: defined when every entry is. *)
Fixpoint map_defined {A B : Type} (f : A -> option B) (arr : list A)
  : option (list B) :=
  match arr with
  | [] => Some []
  | a :: rest =>
      match f a, map_defined f rest with
      | Some b, Some bs => Some (b :: bs)
      | _, _ => None
      end
  end.

Record CreateScaleReturn : Type := mkCreateScaleReturn {
  cs_startX : option Q;
  cs_endX : option Q;
  cs_scale : option ScalePoint;
  cs_scaleValues : option (list Q) }.

(** The object [{}]. *)
Definition empty_scale : CreateScaleReturn :=
  {| cs_startX := None; cs_endX := None; cs_scale := None; cs_scaleValues := None |}.

Definition createScale {A : Type} (data : option (list A))
  (startIndex endIndex : Z) (x width travellerWidth : Q) : CreateScaleReturn :=
  match data with
  | None => empty_scale
  | Some [] => empty_scale
  | Some d =>
      let len := Js.length d in
      let scale := {| sp_domain := range 0 len;
                      sp_range := (x, (x + width - travellerWidth)%Q) |} in
      let scaleValues := map_defined (sp_apply scale) (sp_domain scale) in
      {| cs_startX := sp_apply scale startIndex;
         cs_endX := sp_apply scale endIndex;
         cs_scale := Some scale;
         cs_scaleValues := scaleValues |}
  end.

(** ** RedoBrush: state and handlers *)

(** ['startX' | 'endX'] *)
Inductive BrushTravellerId : Set := id_startX | id_endX.

(** [Record<BrushTravellerId, number>] *)
Record TravellerPositions : Set := mkPositions { startX : Q; endX : Q }.

(** [travellerPositions[id]] *)
Definition position (id : BrushTravellerId) (tp : TravellerPositions) : Q :=
  match id with
  | id_startX => startX tp
  | id_endX => endX tp
  end.

(** [{ ...prev, [id]: v }] *)
Definition set_position (id : BrushTravellerId) (v : Q) (prev : TravellerPositions)
  : TravellerPositions :=
  match id with
  | id_startX => {| startX := v; endX := endX prev |}
  | id_endX => {| startX := startX prev; endX := v |}
  end.

(** The props the handlers read.  [onChange] is always supplied to
    [RedoBrush] by [BrushInternal]; its calls are collected in the list of
    notifications each handler returns. *)
Record BrushWithStateProps (A : Type) : Type := mkProps {
  p_x : Q;
  p_width : Q;
  p_travellerWidth : Q;
  p_gap : Z;
  p_data : list A;
  p_startIndex : Z;
  p_endIndex : Z }.

Arguments mkProps {A}.
Arguments p_x {A}.
Arguments p_width {A}.
Arguments p_travellerWidth {A}.
Arguments p_gap {A}.
Arguments p_data {A}.
Arguments p_startIndex {A}.
Arguments p_endIndex {A}.

(** The [useState] cells the drag and keyboard handlers read or write.  A
    cell that starts as [undefined] is an [option].  [travellerPositions] is
    set during the first render that has a scale, before any handler can
    run. *)
Record BrushState : Set := mkState {
  isTravellerMoving : bool;
  isSlideMoving : bool;
  movingTravellerId : option BrushTravellerId;
  brushMoveStartX : option Q;
  slideMoveStartX : option Q;
  travellerPositions : TravellerPositions }.

(** What a handler leaves behind: the next state and the arguments of the
    [onChange] calls it made, in order. *)
Definition Outcome : Set := (BrushState * list BrushStartEndIndex)%type.

(** The object [params] of [handleTravellerMove]: [data], [gap] and
    [scaleValues] come from the props; [startX] and [endX] are optional. *)
Record MoveParams : Set := mkParams { par_startX : option Q; par_endX : option Q }.

(** [obj[id] = v], also the effect of listing the property [id: v] after a
    spread in an object literal: the later value replaces the earlier one. *)
Definition set_param (id : BrushTravellerId) (v : Q) (params : MoveParams) : MoveParams :=
  match id with
  | id_startX => {| par_startX := Some v; par_endX := par_endX params |}
  | id_endX => {| par_startX := par_startX params; par_endX := Some v |}
  end.

(** The inner function [isFullGap] of [handleTravellerMove]. *)
Definition isFullGap {A : Type} (p : BrushWithStateProps A)
  (movingId : BrushTravellerId) (sX eX : Q) (newIndex : BrushStartEndIndex) : bool :=
  let lastIndex := Js.length (p_data p) - 1 in
  let newStart := startIndex newIndex in
  let newEnd := endIndex newIndex in
  let gap := p_gap p in
  (match movingId with
   | id_startX => if Js.ltb sX eX then Js.rem newStart gap =? 0
                  else Js.rem newEnd gap =? 0
   | id_endX => false
   end)
  || (Js.ltb eX sX && (newEnd =? lastIndex))
  || (match movingId with
      | id_endX => if Js.ltb sX eX then Js.rem newEnd gap =? 0
                   else Js.rem newStart gap =? 0
      | id_startX => false
      end)
  || (Js.ltb sX eX && (newEnd =? lastIndex)).

(** [handleTravellerMove], as the function one render of [RedoBrush]
    created.  [c] is the state that render captured: the handler reads
    [travellerPositions], [movingTravellerId], [brushMoveStartX] (and
    [startX], [endX]) from it.  [prev] is the state React hands to the
    updater of [setTravellerPositions] when it applies it.  Right after a
    render the two are the same state; when a second pointer move reaches
    the handler before the next render, [c] is unchanged and [prev] is what
    the first move left. *)
Definition handleTravellerMove {A : Type} (p : BrushWithStateProps A)
  (scaleValues : list Q) (c prev : BrushState) (pageX : Q) : option Outcome :=
  match movingTravellerId c, brushMoveStartX c with
  | Some movingId, Some moveStartX =>
      let sX := startX (travellerPositions c) in
      let eX := endX (travellerPositions c) in
      let prevValue := position movingId (travellerPositions c) in
      let params := {| par_startX := None; par_endX := None |} in
      let delta := (pageX - moveStartX)%Q in
      let delta :=
        if Js.ltb 0 delta
        then Qmin delta (p_x p + p_width p - p_travellerWidth p - prevValue)%Q
        else if Js.ltb delta 0
             then Qmax delta (p_x p - prevValue)%Q
             else delta in
      let params := set_param movingId (prevValue + delta)%Q params in
      (* getIndex({ ...params, startX, endX }) *)
      let args := set_param id_endX eX (set_param id_startX sX params) in
      match par_startX args, par_endX args with
      | Some argStartX, Some argEndX =>
          let newIndex :=
            getIndex argStartX argEndX scaleValues (p_gap p) (p_data p) in
          (* setTravellerPositions(prev => ...); setBrushMoveStartX(e.pageX) *)
          let s' :=
            {| isTravellerMoving := isTravellerMoving prev;
               isSlideMoving := isSlideMoving prev;
               movingTravellerId := movingTravellerId prev;
               brushMoveStartX := Some pageX;
               slideMoveStartX := slideMoveStartX prev;
               travellerPositions :=
                 set_position movingId
                   (position movingId (travellerPositions prev) + delta)%Q
                   (travellerPositions prev) |} in
          Some (s', if isFullGap p movingId sX eX newIndex then [newIndex] else [])
      | _, _ => None
      end
  | _, _ => None
  end.

(** [handleSlideDrag], with the captured state [c] and the updater's state
    [prev] as for [handleTravellerMove]. *)
Definition handleSlideDrag {A : Type} (p : BrushWithStateProps A)
  (scaleValues : list Q) (c prev : BrushState) (pageX : Q) : option Outcome :=
  match slideMoveStartX c with
  | Some moveStartX =>
      let sX := startX (travellerPositions c) in
      let eX := endX (travellerPositions c) in
      let delta := (pageX - moveStartX)%Q in
      let delta :=
        if Js.ltb 0 delta
        then Qmin (Qmin delta (p_x p + p_width p - p_travellerWidth p - eX)%Q)
                  (p_x p + p_width p - p_travellerWidth p - sX)%Q
        else if Js.ltb delta 0
             then Qmax (Qmax delta (p_x p - sX)%Q) (p_x p - eX)%Q
             else delta in
      let newIndex :=
        getIndex (sX + delta)%Q (eX + delta)%Q scaleValues (p_gap p) (p_data p) in
      let notes :=
        if negb (startIndex newIndex =? p_startIndex p)
           || negb (endIndex newIndex =? p_endIndex p)
        then [newIndex] else [] in
      (* setTravellerPositions(prev => ...); setSlideMoveStartX(e.pageX) *)
      let s' :=
        {| isTravellerMoving := isTravellerMoving prev;
           isSlideMoving := isSlideMoving prev;
           movingTravellerId := movingTravellerId prev;
           brushMoveStartX := brushMoveStartX prev;
           slideMoveStartX := Some pageX;
           travellerPositions :=
             {| startX := (startX (travellerPositions prev) + delta)%Q;
                endX := (endX (travellerPositions prev) + delta)%Q |} |} in
      Some (s', notes)
  | None => None
  end.

(** [handleDrag]: the flags are those the render captured. *)
Definition handleDrag {A : Type} (p : BrushWithStateProps A)
  (scaleValues : list Q) (c prev : BrushState) (pageX : Q) : option Outcome :=
  if isTravellerMoving c then handleTravellerMove p scaleValues c prev pageX
  else if isSlideMoving c then handleSlideDrag p scaleValues c prev pageX
  else Some (prev, []).

Definition handleTravellerDragStart (id : BrushTravellerId) (pageX : Q)
  (s : BrushState) : BrushState :=
  {| isTravellerMoving := true;
     isSlideMoving := false;
     movingTravellerId := Some id;
     brushMoveStartX := Some pageX;
     slideMoveStartX := slideMoveStartX s;
     travellerPositions := travellerPositions s |}.

Definition handleSlideDragStart (pageX : Q) (s : BrushState) : BrushState :=
  {| isTravellerMoving := false;
     isSlideMoving := true;
     movingTravellerId := movingTravellerId s;
     brushMoveStartX := brushMoveStartX s;
     slideMoveStartX := Some pageX;
     travellerPositions := travellerPositions s |}.

(** The argument [direction: 1 | -1]; [onKeyDown] passes 1 for ArrowRight
    and -1 for ArrowLeft. *)
Inductive Direction : Set := ArrowRight | ArrowLeft.

Definition direction_value (d : Direction) : Z :=
  match d with
  | ArrowRight => 1
  | ArrowLeft => -1
  end.

Definition handleTravellerMoveKeyboard {A : Type} (p : BrushWithStateProps A)
  (scaleValues : list Q) (s : BrushState) (direction : Direction)
  (id : BrushTravellerId) : Outcome :=
  let sX := startX (travellerPositions s) in
  let eX := endX (travellerPositions s) in
  let currentScaleValue := position id (travellerPositions s) in
  let currentIndex := Js.indexOf scaleValues currentScaleValue in
  if currentIndex =? -1 then (s, [])
  else
    let newIndex := currentIndex + direction_value direction in
    if (newIndex =? -1) || (newIndex >=? Js.length scaleValues) then (s, [])
    else
      match Js.get scaleValues newIndex with
      | None => (s, [])
      | Some newScaleValue =>
          if match id with
             | id_startX => Js.leb eX newScaleValue
             | id_endX => Js.leb newScaleValue sX
             end
          then (s, [])
          else
            ({| isTravellerMoving := isTravellerMoving s;
                isSlideMoving := isSlideMoving s;
                movingTravellerId := movingTravellerId s;
                brushMoveStartX := brushMoveStartX s;
                slideMoveStartX := slideMoveStartX s;
                travellerPositions :=
                  set_position id newScaleValue (travellerPositions s) |},
             [getIndex sX eX scaleValues (p_gap p) (p_data p)])
      end.

(** What happens between the press and the release of a drag: a pointer
    move reaches the handlers of the last render, or React renders again
    (and the effect attaches the handlers of the new render). *)
Inductive DragStep : Set :=
| Move (pageX : Q)
| Rerender.

(** A drag session after its start.  [c] is the state the last render
    captured, [prev] the state as the handlers have left it: a [Move] is
    handled by the handlers of [c] and updates [prev]; a [Rerender] makes the
    captured state the current one.  The result is the state at the end. *)
Fixpoint drag_moves {A : Type} (p : BrushWithStateProps A) (scaleValues : list Q)
  (c prev : BrushState) (steps : list DragStep) : option BrushState :=
  match steps with
  | [] => Some prev
  | Move pageX :: rest =>
      match handleDrag p scaleValues c prev pageX with
      | Some (prev', _) => drag_moves p scaleValues c prev' rest
      | None => None
      end
  | Rerender :: rest => drag_moves p scaleValues prev prev rest
  end.

(** Every [Move] of the steps is handled by a render that has seen the move
    before it: no two moves without a [Rerender] between them.  [fresh]
    tells whether the last render has seen everything so far. *)
Fixpoint moves_rendered (fresh : bool) (steps : list DragStep) : bool :=
  match steps with
  | [] => true
  | Move _ :: rest => fresh && moves_rendered false rest
  | Rerender :: rest => moves_rendered true rest
  end.

(** ** Predicates and helpers of the statements *)

(** A coordinate table whose entries never decrease. *)
Definition non_decreasing (table : list Q) : Prop :=
  forall i j a b, (i <= j)%nat ->
    nth_error table i = Some a -> nth_error table j = Some b -> (a <= b)%Q.

(** A coordinate table whose entries strictly increase. *)
Definition strictly_increasing (table : list Q) : Prop :=
  forall i j a b, (i < j)%nat ->
    nth_error table i = Some a -> nth_error table j = Some b -> (a < b)%Q.

(** The pixel range a traveller may occupy:
    [[x, x + width - travellerWidth]]. *)
Definition on_track {A : Type} (p : BrushWithStateProps A) (v : Q) : Prop :=
  (p_x p <= v /\ v <= p_x p + p_width p - p_travellerWidth p)%Q.

(** The handle that is not being moved. *)
Definition other_id (id : BrushTravellerId) : BrushTravellerId :=
  match id with
  | id_startX => id_endX
  | id_endX => id_startX
  end.

(** The delta of [handleTravellerMove] after clamping, as a function of the
    previous position and the raw delta. *)
Definition clamped_delta {A : Type} (p : BrushWithStateProps A)
  (prevValue delta : Q) : Q :=
  if Js.ltb 0 delta
  then Qmin delta (p_x p + p_width p - p_travellerWidth p - prevValue)%Q
  else if Js.ltb delta 0
       then Qmax delta (p_x p - prevValue)%Q
       else delta.

(** A whole number. *)
Definition integral (v : Q) : Prop := exists z : Z, (v == inject_Z z)%Q.

(** A pixel value on which the sums and differences the handlers compute
    are the same in the source's doubles as in exact arithmetic: a whole
    number of magnitude at most 2^50 (every intermediate result of the
    handlers then stays below 2^53). *)
Definition pixel_value (v : Q) : Prop :=
  exists z : Z, (v == inject_Z z)%Q /\ Z.abs z <= 2 ^ 50.

(** A brush geometry given in such pixel values. *)
Definition exact_geometry {A : Type} (p : BrushWithStateProps A) : Prop :=
  pixel_value (p_x p) /\ pixel_value (p_width p) /\
  pixel_value (p_travellerWidth p).

(** A handle position that is a whole number on the track. *)
Definition whole_on_track {A : Type} (p : BrushWithStateProps A) (v : Q) : Prop :=
  integral v /\ on_track p v.

(** The pointer coordinates of the steps are pixel values. *)
Definition step_exact (st : DragStep) : Prop :=
  match st with
  | Move pageX => pixel_value pageX
  | Rerender => True
  end.

(** The invariant of a traveller drag session on pixel values. *)
Definition dragging {A : Type} (p : BrushWithStateProps A)
  (id : BrushTravellerId) (s : BrushState) : Prop :=
  isTravellerMoving s = true /\
  movingTravellerId s = Some id /\
  (exists moveStartX, brushMoveStartX s = Some moveStartX /\ pixel_value moveStartX) /\
  whole_on_track p (startX (travellerPositions s)) /\
  whole_on_track p (endX (travellerPositions s)).

(** The move the handler would refuse for putting the handles on top of
    each other or in the wrong order. *)
Definition would_invert (id : BrushTravellerId) (newScaleValue : Q)
  (tp : TravellerPositions) : Prop :=
  match id with
  | id_startX => (endX tp <= newScaleValue)%Q
  | id_endX => (newScaleValue <= startX tp)%Q
  end.

(** ** Sample inputs *)

(** A brush over four data points on the track [[0, 30]]: the coordinates
    are 0, 10, 20, 30 and the whole range is selected. *)
Definition four_points : BrushWithStateProps unit :=
  {| p_x := 0; p_width := 35 # 1; p_travellerWidth := 5 # 1; p_gap := 1;
     p_data := [tt; tt; tt; tt]; p_startIndex := 0; p_endIndex := 3 |}.

Definition four_points_table : list Q := [0; 10 # 1; 20 # 1; 30 # 1]%Q.

Definition four_points_idle : BrushState :=
  {| isTravellerMoving := false; isSlideMoving := false;
     movingTravellerId := None; brushMoveStartX := None;
     slideMoveStartX := None;
     travellerPositions := {| startX := 0; endX := 30 # 1 |} |}.

(** The same brush after a pointer drag has left the end handle at pixel
    18, between the coordinates 10 and 20. *)
Definition four_points_off_table : BrushState :=
  {| isTravellerMoving := false; isSlideMoving := false;
     movingTravellerId := None; brushMoveStartX := None;
     slideMoveStartX := None;
     travellerPositions := {| startX := 0; endX := 18 # 1 |} |}.

(** The same brush with the handles on the coordinates 0 and 10. *)
Definition four_points_close : BrushState :=
  {| isTravellerMoving := false; isSlideMoving := false;
     movingTravellerId := None; brushMoveStartX := None;
     slideMoveStartX := None;
     travellerPositions := {| startX := 0; endX := 10 # 1 |} |}.

(** The table the source gives as an example of [scaleValues]. *)
Definition six_points_table : list Q :=
  [65 # 1; 250 # 1; 435 # 1; 620 # 1; 805 # 1; 990 # 1].

(** ** Slide and TravellerLayer *)

(** The [x] attribute of the rectangle [Slide] draws, in exact arithmetic
    (the source's sum is the same on pixel values). *)
Definition Slide_x (travellerWidth sX eX : Q) : Q :=
  (Qmin sX eX + travellerWidth)%Q.

(** The [width] attribute of the rectangle [Slide] draws, in exact
    arithmetic (the source's differences are the same on pixel values). *)
Definition Slide_width (travellerWidth sX eX : Q) : Q :=
  Qmax (Qabs (eX - sX) - travellerWidth)%Q 0.

(** The [x] at which [TravellerLayer] draws a traveller:
    [Math.max(travellerX ?? 0, xFromProps)]. *)
Definition TravellerLayer_x (travellerX : option Q) (xFromProps : Q) : Q :=
  Qmax (match travellerX with Some v => v | None => 0 end) xFromProps.

(** [onKeyDown] of [TravellerLayer]: keys other than the two arrows return
    early; otherwise the direction handed to [onTravellerMoveKeyboard]. *)
Definition onKeyDown (key : String.string) : option Direction :=
  if negb (String.eqb key "ArrowLeft"%string || String.eqb key "ArrowRight"%string)
  then None
  else Some (if String.eqb key "ArrowRight"%string then ArrowRight else ArrowLeft).

(** ** RedoBrush: first positions, drag end, and the events *)

(** The positions [RedoBrush] stores when it has a scale and no positions
    yet: [{ startX: scale(startIndex), endX: scale(endIndex) }].  [None]
    when there is no scale or an index is outside the scale's domain. *)
Definition initial_positions {A : Type} (p : BrushWithStateProps A)
  : option TravellerPositions :=
  let r := createScale (Some (p_data p)) (p_startIndex p) (p_endIndex p)
                       (p_x p) (p_width p) (p_travellerWidth p) in
  match cs_scale r with
  | None => None
  | Some scale =>
      match sp_apply scale (p_startIndex p), sp_apply scale (p_endIndex p) with
      | Some a, Some b => Some {| startX := a; endX := b |}
      | _, _ => None
      end
  end.

(** [handleDragEnd]: both drag flags are cleared and [onDragEnd], when the
    props hold one, is called with the indices of the props.  The second
    component lists the arguments of the [onDragEnd] calls. *)
Definition handleDragEnd {A : Type} (p : BrushWithStateProps A)
  (hasOnDragEnd : bool) (s : BrushState) : BrushState * list BrushStartEndIndex :=
  ({| isTravellerMoving := false;
      isSlideMoving := false;
      movingTravellerId := movingTravellerId s;
      brushMoveStartX := brushMoveStartX s;
      slideMoveStartX := slideMoveStartX s;
      travellerPositions := travellerPositions s |},
   if hasOnDragEnd
   then [{| startIndex := p_startIndex p; endIndex := p_endIndex p |}]
   else []).


(** What reaches the brush: a press on a traveller or on the slide
    ([onMouseDown] / [onTouchStart]), a pointer move ([mousemove] on the
    window or [onTouchMove]), a release ([mouseup] / [touchend] on the
    window), a key on a focused traveller, and a render of React between
    two pointer moves. *)
Inductive BrushEvent : Set :=
| TravellerDown (id : BrushTravellerId) (pageX : Q)
| SlideDown (pageX : Q)
| PointerMove (pageX : Q)
| PointerUp
| KeyDown (key : String.string) (id : BrushTravellerId)
| Render.

(** The brush between two events: the state the last render captured and
    the state as the handlers have left it. *)
Record Mounted : Set := mkMounted { captured : BrushState; current : BrushState }.

(** What handling an event leaves: the brush, the [onChange] calls and the
    [onDragEnd] calls. *)
Definition Handled : Set :=
  (Mounted * list BrushStartEndIndex * list BrushStartEndIndex)%type.

(** The brush right after a render of state [s]. *)
Definition rendered (s : BrushState) : Mounted :=
  {| captured := s; current := s |}.

(** The wiring of [RedoBrush]: which handler each event reaches.  A press,
    a release and a key are discrete events: React has rendered the current
    state when it handles one and renders again right after it.  Pointer
    moves are not: one reaches the handlers of the last render, whatever
    the moves since then have changed.  The release listeners are attached
    only while one of the drag flags is set. *)
Definition handleEvent {A : Type} (p : BrushWithStateProps A)
  (scaleValues : list Q) (hasOnDragEnd : bool) (m : Mounted)
  (ev : BrushEvent) : option Handled :=
  let s := current m in
  match ev with
  | TravellerDown id pageX =>
      Some (rendered (handleTravellerDragStart id pageX s), [], [])
  | SlideDown pageX => Some (rendered (handleSlideDragStart pageX s), [], [])
  | PointerMove pageX =>
      match handleDrag p scaleValues (captured m) s pageX with
      | Some (s', changes) =>
          Some ({| captured := captured m; current := s' |}, changes, [])
      | None => None
      end
  | PointerUp =>
      if isSlideMoving s || isTravellerMoving s
      then let '(s', ends) := handleDragEnd p hasOnDragEnd s in
           Some (rendered s', [], ends)
      else Some (rendered s, [], [])
  | KeyDown key id =>
      match onKeyDown key with
      | None => Some (rendered s, [], [])
      | Some direction =>
          let '(s', changes) :=
            handleTravellerMoveKeyboard p scaleValues s direction id in
          Some (rendered s', changes, [])
      end
  | Render => Some (rendered s, [], [])
  end.

(** A sequence of events, each handled on the brush the previous one left;
    the calls are collected in order. *)
Fixpoint handleEvents {A : Type} (p : BrushWithStateProps A)
  (scaleValues : list Q) (hasOnDragEnd : bool) (m : Mounted)
  (evs : list BrushEvent) : option Handled :=
  match evs with
  | [] => Some (m, [], [])
  | ev :: rest =>
      match handleEvent p scaleValues hasOnDragEnd m ev with
      | Some (m1, changes1, ends1) =>
          match handleEvents p scaleValues hasOnDragEnd m1 rest with
          | Some (m2, changes2, ends2) =>
              Some (m2, changes1 ++ changes2, ends1 ++ ends2)
          | None => None
          end
      | None => None
      end
  end.

(** A sequence of key presses on the travellers. *)
Fixpoint key_presses {A : Type} (p : BrushWithStateProps A)
  (scaleValues : list Q) (s : BrushState)
  (presses : list (Direction * BrushTravellerId)) : BrushState :=
  match presses with
  | [] => s
  | (direction, id) :: rest =>
      key_presses p scaleValues
        (fst (handleTravellerMoveKeyboard p scaleValues s direction id)) rest
  end.

(** The other arrow key. *)
Definition opposite (d : Direction) : Direction :=
  match d with
  | ArrowRight => ArrowLeft
  | ArrowLeft => ArrowRight
  end.

(** A state whose drag flags are in order: a running traveller drag has its
    handle and its start coordinate recorded, a running slide drag its
    start coordinate, and the two flags are not both set. *)
Definition well_formed (s : BrushState) : Prop :=
  (isTravellerMoving s = true ->
   movingTravellerId s <> None /\ brushMoveStartX s <> None) /\
  (isSlideMoving s = true -> slideMoveStartX s <> None) /\
  (isTravellerMoving s && isSlideMoving s = false).

(** Every coordinate of the table is on the track. *)
Definition table_on_track {A : Type} (p : BrushWithStateProps A)
  (scaleValues : list Q) : Prop :=
  forall v, In v scaleValues -> on_track p v.

(** What the loop knows about its bracket: the entry at [start] is at most
    [x] unless [start] is still 0, the entry at [end] is above [x] unless
    [end] is still the last index. *)
Definition bracket_inv (vr : list Q) (x : Q) (s e : Z) : Prop :=
  (s = 0 \/ exists v, Js.get vr s = Some v /\ (v <= x)%Q) /\
  (e = Js.length vr - 1 \/ exists v, Js.get vr e = Some v /\ (x < v)%Q).

(** A position clamped to the track. *)
Definition clamp_to_track {A : Type} (p : BrushWithStateProps A) (v : Q) : Q :=
  Qmax (p_x p) (Qmin (p_x p + p_width p - p_travellerWidth p)%Q v).

(** * Proofs *)

(** ** Facts about the search loop *)

Lemma floor_half_between (s e : Z) :
  e - s > 1 -> s < Js.floor_half s e < e.
Proof. unfold Js.floor_half. intros H. Z.div_mod_to_equations. lia. Qed.

Example getIndexInRange_ex1 :
  getIndexInRange [65#1; 250#1; 435#1; 620#1; 805#1; 990#1] (500#1) = 2.
Proof. reflexivity. Qed.

Lemma loop_cond_true (s e : Z) : loop_cond (s, e) = true <-> e - s > 1.
Proof. unfold loop_cond; simpl. rewrite Z.gtb_lt. lia. Qed.

Lemma loop_cond_false (s e : Z) : loop_cond (s, e) = false <-> e - s <= 1.
Proof.
  unfold loop_cond; simpl. rewrite Z.gtb_ltb, Z.ltb_ge. lia.
Qed.

(** [search] is the loop: test the condition, run the body, repeat. *)
Lemma search_loop (vr : list Q) (x : Q) (s e : Z) :
  search vr x s e =
  if loop_cond (s, e)
  then let b := loop_body vr x (s, e) in search vr x (fst b) (snd b)
  else (s, e).
Proof.
  rewrite search_equation_1. unfold search_unfold_clause_1.
  destruct (Z_gt_dec (e - s) 1) as [Hgt | Hle].
  - assert (loop_cond (s, e) = true) as -> by (apply loop_cond_true; lia).
    unfold loop_body.
    destruct (Js.gt _ x); reflexivity.
  - assert (loop_cond (s, e) = false) as -> by (apply loop_cond_false; lia).
    reflexivity.
Qed.

(** Each pass through the body keeps the bracket inside the old one and
    makes it strictly narrower, whatever the table holds. *)
Lemma loop_body_narrows (vr : list Q) (x : Q) (s e : Z) :
  loop_cond (s, e) = true ->
  let b := loop_body vr x (s, e) in
  s <= fst b /\ snd b <= e /\ 1 <= snd b - fst b < e - s.
Proof.
  intros Hc. apply loop_cond_true in Hc.
  pose proof (floor_half_between s e Hc) as Hm.
  unfold loop_body. destruct (Js.gt _ x); simpl; lia.
Qed.

(** With at least [end - start] iterations allowed, the bounded loop
    finishes, and on the bracket the total function computes. *)
Lemma while_loop_search (vr : list Q) (x : Q) (fuel : nat) :
  forall s e, (e - s <= Z.of_nat fuel + 1) ->
              while_loop fuel vr x (s, e) = Some (search vr x s e).
Proof.
  induction fuel as [| fuel IH]; intros s e Hfuel;
    cbn [while_loop]; rewrite search_loop.
  - assert (loop_cond (s, e) = false) as -> by (apply loop_cond_false; lia).
    reflexivity.
  - destruct (loop_cond (s, e)) eqn:Hc; [| reflexivity].
    pose proof (loop_body_narrows vr x s e Hc) as Hn. cbv zeta in *.
    destruct (loop_body vr x (s, e)) as [s' e']. cbn [fst snd] in *.
    apply IH. lia.
Qed.

(** The final bracket lies inside the initial one and has width at most 1;
    its width is exactly 1 when the initial bracket was not a single point. *)
Lemma search_bracket (vr : list Q) (x : Q) (n : nat) :
  forall s e, s <= e -> e - s <= Z.of_nat n ->
    let b := search vr x s e in
    s <= fst b /\ fst b <= snd b /\ snd b <= e /\
    snd b - fst b <= 1 /\ (s < e -> snd b - fst b = 1).
Proof.
  induction n as [| n IH]; intros s e Hse Hn; cbv zeta; rewrite search_loop.
  - assert (loop_cond (s, e) = false) as -> by (apply loop_cond_false; lia).
    cbn [fst snd]. lia.
  - destruct (loop_cond (s, e)) eqn:Hc.
    + pose proof (loop_body_narrows vr x s e Hc) as Hb. cbv zeta in *.
      destruct (loop_body vr x (s, e)) as [s' e']. cbn [fst snd] in *.
      specialize (IH s' e'). cbv zeta in IH. lia.
    + apply loop_cond_false in Hc. cbn [fst snd]. lia.
Qed.

Lemma pick_cases (vr : list Q) (x : Q) (b : Bracket) :
  pick vr x b = fst b \/ pick vr x b = snd b.
Proof. unfold pick. destruct (Js.ge _ _); auto. Qed.

(** The located index is a valid index of a non-empty table. *)
Lemma getIndexInRange_bounds (vr : list Q) (x : Q) :
  vr <> [] -> 0 <= getIndexInRange vr x <= Js.length vr - 1.
Proof.
  intros Hne. unfold getIndexInRange. cbv zeta.
  assert (1 <= Js.length vr) as Hlen.
  { unfold Js.length. destruct vr; [congruence | simpl; lia]. }
  pose proof (search_bracket vr x (Z.to_nat (Js.length vr)) 0 (Js.length vr - 1))
    as Hb. cbv zeta in Hb.
  destruct (pick_cases vr x (search vr x 0 (Js.length vr - 1))) as [-> | ->]; lia.
Qed.

(** On an empty table the answer is 0: [valueRange[-1]] is [undefined]. *)
Lemma getIndexInRange_nil (x : Q) : getIndexInRange [] x = 0.
Proof. reflexivity. Qed.

Lemma getIndexInRange_nonneg (vr : list Q) (x : Q) : 0 <= getIndexInRange vr x.
Proof.
  destruct vr as [| a vr]; [rewrite getIndexInRange_nil; lia |].
  apply getIndexInRange_bounds. discriminate.
Qed.

(** ** Monotonicity of the search *)

Lemma js_gt_antitone (a : option Q) (x1 x2 : Q) :
  (x1 <= x2)%Q -> Js.gt a x2 = true -> Js.gt a x1 = true.
Proof.
  destruct a as [v |]; simpl; [| discriminate].
  intros Hx H2. apply negb_true_iff in H2. apply negb_true_iff.
  destruct (Qle_bool v x1) eqn:H1; [| reflexivity].
  apply Qle_bool_iff in H1.
  assert (Qle_bool v x2 = true) by (apply Qle_bool_iff; lra).
  congruence.
Qed.

Lemma js_ge_monotone (a : option Q) (x1 x2 : Q) :
  (x1 <= x2)%Q -> Js.ge x1 a = true -> Js.ge x2 a = true.
Proof.
  destruct a as [v |]; simpl; [| discriminate].
  intros Hx H1. apply Qle_bool_iff in H1. apply Qle_bool_iff. lra.
Qed.

(** Two searches over the same table either end in the same bracket, or
    the one for the smaller coordinate ends to the left of the other. *)
Lemma search_mono (vr : list Q) (x1 x2 : Q) (n : nat) :
  (x1 <= x2)%Q ->
  forall s e, s <= e -> e - s <= Z.of_nat n ->
    search vr x1 s e = search vr x2 s e \/
    snd (search vr x1 s e) <= fst (search vr x2 s e).
Proof.
  intros Hx. induction n as [| n IH]; intros s e Hse Hn.
  - rewrite (search_loop vr x1), (search_loop vr x2).
    assert (loop_cond (s, e) = false) as -> by (apply loop_cond_false; lia).
    now left.
  - rewrite (search_loop vr x1), (search_loop vr x2).
    destruct (loop_cond (s, e)) eqn:Hc; [| now left].
    apply loop_cond_true in Hc.
    pose proof (floor_half_between s e Hc) as Hm.
    cbv zeta. unfold loop_body.
    set (m := Js.floor_half s e) in *.
    destruct (Js.gt (Js.get vr m) x2) eqn:H2.
    + rewrite (js_gt_antitone _ _ _ Hx H2). cbn [fst snd]. apply IH; lia.
    + destruct (Js.gt (Js.get vr m) x1) eqn:H1; cbn [fst snd].
      * right.
        pose proof (search_bracket vr x1 n s m) as B1.
        pose proof (search_bracket vr x2 n m e) as B2.
        cbv zeta in B1, B2. lia.
      * apply IH; lia.
Qed.

Lemma getIndexInRange_mono_le (vr : list Q) (x1 x2 : Q) :
  (x1 <= x2)%Q -> getIndexInRange vr x1 <= getIndexInRange vr x2.
Proof.
  intros Hx. destruct vr as [| a vr0] eqn:E.
  - rewrite !getIndexInRange_nil. lia.
  - rewrite <- E. assert (1 <= Js.length vr) as Hlen.
    { subst vr. unfold Js.length. simpl. lia. }
    unfold getIndexInRange. cbv zeta.
    set (e := Js.length vr - 1) in *.
    pose proof (search_bracket vr x1 (Z.to_nat e) 0 e) as B1.
    pose proof (search_bracket vr x2 (Z.to_nat e) 0 e) as B2.
    cbv zeta in B1, B2.
    destruct (search_mono vr x1 x2 (Z.to_nat e) Hx 0 e) as [Heq | Hlt];
      try lia.
    + rewrite Heq in *. unfold pick.
      destruct (Js.ge x1 _) eqn:G1.
      * rewrite (js_ge_monotone _ _ _ Hx G1). lia.
      * destruct (Js.ge x2 _); lia.
    + pose proof (pick_cases vr x1 (search vr x1 0 e)) as [-> | ->];
        pose proof (pick_cases vr x2 (search vr x2 0 e)) as [-> | ->]; lia.
Qed.

Example getIndex_ex1 :
  getIndex (990#1) (300#1) [65#1; 250#1; 435#1; 620#1; 805#1; 990#1] 2
           [tt; tt; tt; tt; tt; tt]
  = {| startIndex := 0; endIndex := 5 |}.
Proof. reflexivity. Qed.

(** On the indices the search returns, [%] is the mathematical [mod]. *)
Lemma rem_is_mod (i gap : Z) : 0 <= i -> 1 <= gap -> Js.rem i gap = i mod gap.
Proof. intros Hi Hg. unfold Js.rem. apply Z.rem_mod_nonneg; lia. Qed.

Lemma snap_multiple (i gap : Z) : 1 <= gap -> (gap | i - i mod gap).
Proof.
  intros Hg. exists (i / gap).
  pose proof (Z.div_mod i gap). lia.
Qed.

Lemma snap_bounds (i gap : Z) : 0 <= i -> 1 <= gap -> 0 <= i - i mod gap <= i.
Proof.
  intros Hi Hg. pose proof (Z.mod_pos_bound i gap).
  pose proof (Z.mod_le i gap). lia.
Qed.

Lemma snap_monotone (i j gap : Z) :
  1 <= gap -> i <= j -> i - i mod gap <= j - j mod gap.
Proof.
  intros Hg Hij.
  pose proof (Z.div_mod i gap). pose proof (Z.div_mod j gap).
  assert (i / gap <= j / gap) by (apply Z.div_le_mono; lia).
  nia.
Qed.

Lemma Qmin_le_Qmax (a b : Q) : (Qmin a b <= Qmax a b)%Q.
Proof.
  apply Qle_trans with a; [apply Q.le_min_l | apply Q.le_max_l].
Qed.

(** ** Claims about the index locator *)

(** C2. On a table with at least one element the loop ends in a bracket
    [(s, e)] of valid indices with [e - s <= 1]; [getIndexInRange] returns
    [e] when [x >= table[e]] and [s] otherwise.  On a one-element table the
    result is index 0 for every [x]. *)
Theorem getIndexInRange_returns_bracket_end_or_start
  (valueRange : list Q) (x : Q) :
  valueRange <> [] ->
  (exists s e v,
      while_loop (List.length valueRange) valueRange x
                 (0, Js.length valueRange - 1) = Some (s, e) /\
      0 <= s <= e /\ e <= Js.length valueRange - 1 /\ e - s <= 1 /\
      Js.get valueRange e = Some v /\
      ((v <= x)%Q -> getIndexInRange valueRange x = e) /\
      ((x < v)%Q -> getIndexInRange valueRange x = s)) /\
  (List.length valueRange = 1%nat -> getIndexInRange valueRange x = 0).
Proof.
  intros Hne.
  assert (1 <= Js.length valueRange) as Hlen.
  { unfold Js.length. destruct valueRange; [congruence | simpl; lia]. }
  split.
  - pose proof (search_bracket valueRange x (List.length valueRange)
                  0 (Js.length valueRange - 1)) as Hb. cbv zeta in Hb.
    unfold getIndexInRange. cbv zeta.
    rewrite while_loop_search by (unfold Js.length in *; lia).
    destruct (search valueRange x 0 (Js.length valueRange - 1)) as [s e].
    cbn [fst snd] in Hb.
    assert (Hb' : 0 <= s /\ s <= e /\ e <= Js.length valueRange - 1 /\ e - s <= 1)
      by (unfold Js.length in *; lia).
    clear Hb. destruct Hb' as (H0 & Hse & He & Hw).
    destruct (Js.get valueRange e) as [v |] eqn:Hget.
    + exists s, e, v. unfold pick. cbn [fst snd]. rewrite Hget. simpl.
      repeat split; try lia.
      * intros Hv. apply Qle_bool_iff in Hv. now rewrite Hv.
      * intros Hv. destruct (Qle_bool v x) eqn:Hq; [| reflexivity].
        apply Qle_bool_iff in Hq. lra.
    + exfalso. unfold Js.get in Hget.
      destruct (e <? 0) eqn:Hneg; [apply Z.ltb_lt in Hneg; lia |].
      apply nth_error_None in Hget. unfold Js.length in He. lia.
  - intros H1. destruct valueRange as [| a [| b l]]; try discriminate.
    unfold getIndexInRange, Js.length. cbn [List.length Z.of_nat].
    rewrite search_loop. cbn. unfold pick. cbn.
    destruct (Qle_bool a x); reflexivity.
Qed.

(** C8. [getIndexInRange] is monotonic in the pixel coordinate, for every
    table: [x1 < x2] implies [locate x1 <= locate x2]. *)
Theorem getIndexInRange_monotonic (valueRange : list Q) (x1 x2 : Q) :
  (x1 < x2)%Q ->
  getIndexInRange valueRange x1 <= getIndexInRange valueRange x2.
Proof.
  intros Hx. apply getIndexInRange_mono_le. lra.
Qed.

(** C9. The search terminates on every table with at least one element,
    sorted or not, duplicates or not: every pass through the loop body
    strictly narrows [end - start], and at most [length] passes are needed
    before the loop condition fails and the function returns. *)
Theorem getIndexInRange_terminates (valueRange : list Q) (x : Q) :
  valueRange <> [] ->
  (forall s e, loop_cond (s, e) = true ->
      let b := loop_body valueRange x (s, e) in
      0 < snd b - fst b < e - s) /\
  (exists b, while_loop (List.length valueRange) valueRange x
                        (0, Js.length valueRange - 1) = Some b /\
             loop_cond b = false /\
             getIndexInRange valueRange x = pick valueRange x b).
Proof.
  intros Hne. split.
  - intros s e Hc. pose proof (loop_body_narrows valueRange x s e Hc) as H.
    cbv zeta in *. lia.
  - exists (search valueRange x 0 (Js.length valueRange - 1)).
    assert (1 <= Js.length valueRange) as Hlen.
    { unfold Js.length. destruct valueRange; [congruence | simpl; lia]. }
    split; [apply while_loop_search; unfold Js.length; lia |].
    split; [| reflexivity].
    pose proof (search_bracket valueRange x (List.length valueRange)
                  0 (Js.length valueRange - 1)) as Hb. cbv zeta in Hb.
    destruct (search valueRange x 0 (Js.length valueRange - 1)) as [s e].
    apply loop_cond_false. cbn [fst snd] in Hb. unfold Js.length in *. lia.
Qed.

(** C1. For a non-empty data array and [gap >= 1], [getIndex] rounds the
    located minimum down to a multiple of [gap], keeps the located maximum
    when it is the last data index and rounds it down otherwise.  With
    [gap = 1] nothing is altered; with [gap > 1] the start index is a
    multiple of [gap], and so is the end index unless it is the last index. *)
Theorem getIndex_snaps_to_gap {A : Type} (data : list A) (gap : Z)
  (scaleValues : list Q) (startX endX : Q) :
  data <> [] -> 1 <= gap ->
  let minIndex := getIndexInRange scaleValues (Qmin startX endX) in
  let maxIndex := getIndexInRange scaleValues (Qmax startX endX) in
  let lastIndex := Js.length data - 1 in
  let r := getIndex startX endX scaleValues gap data in
  startIndex r = minIndex - minIndex mod gap /\
  endIndex r = (if maxIndex =? lastIndex then maxIndex
                else maxIndex - maxIndex mod gap) /\
  (gap = 1 -> r = {| startIndex := minIndex; endIndex := maxIndex |}) /\
  (1 < gap ->
   (gap | startIndex r) /\ ((gap | endIndex r) \/ endIndex r = lastIndex)).
Proof.
  intros Hdata Hgap. cbv zeta. unfold getIndex. cbv zeta. cbn [startIndex endIndex].
  set (minIndex := getIndexInRange scaleValues (Qmin startX endX)).
  set (maxIndex := getIndexInRange scaleValues (Qmax startX endX)).
  set (lastIndex := Js.length data - 1).
  assert (0 <= minIndex) as Hmin by apply getIndexInRange_nonneg.
  assert (0 <= maxIndex) as Hmax by apply getIndexInRange_nonneg.
  rewrite !rem_is_mod by assumption.
  split; [reflexivity |]. split.
  - destruct (maxIndex =? lastIndex) eqn:E; [| reflexivity].
    apply Z.eqb_eq in E. lia.
  - split.
    + intros ->. rewrite !Z.mod_1_r, !Z.sub_0_r.
      destruct (maxIndex =? lastIndex) eqn:E; [| reflexivity].
      apply Z.eqb_eq in E. now rewrite E.
    + intros Hg. split; [apply snap_multiple; lia |].
      destruct (maxIndex =? lastIndex); [now right | left].
      apply snap_multiple; lia.
Qed.

(** The window is ordered and within the table, whatever the table holds. *)
Lemma getIndex_window {A : Type} (data : list A) (gap : Z)
  (scaleValues : list Q) (startX endX : Q) :
  scaleValues <> [] -> 1 <= gap ->
  Js.length scaleValues = Js.length data ->
  let r := getIndex startX endX scaleValues gap data in
  0 <= startIndex r /\ startIndex r <= endIndex r /\
  endIndex r <= Js.length data - 1.
Proof.
  intros Hne Hgap Hlen. cbv zeta. unfold getIndex. cbv zeta.
  cbn [startIndex endIndex].
  set (minIndex := getIndexInRange scaleValues (Qmin startX endX)).
  set (maxIndex := getIndexInRange scaleValues (Qmax startX endX)).
  pose proof (getIndexInRange_bounds scaleValues (Qmin startX endX) Hne) as Bmin.
  pose proof (getIndexInRange_bounds scaleValues (Qmax startX endX) Hne) as Bmax.
  pose proof (getIndexInRange_mono_le scaleValues _ _ (Qmin_le_Qmax startX endX))
    as Hmono.
  fold minIndex in Bmin, Hmono. fold maxIndex in Bmax, Hmono.
  rewrite !rem_is_mod by lia.
  pose proof (snap_bounds minIndex gap) as Smin.
  pose proof (snap_bounds maxIndex gap) as Smax.
  pose proof (snap_monotone minIndex maxIndex gap) as Smono.
  destruct (maxIndex =? Js.length data - 1) eqn:E.
  - apply Z.eqb_eq in E. lia.
  - lia.
Qed.

(** C10. With a non-empty data array, [gap >= 1] and a non-decreasing
    coordinate table holding one coordinate per data index, the window
    returned by [getIndex] satisfies [0 <= startIndex <= endIndex <=
    data.length - 1], in whichever order the two pixel positions come. *)
Theorem getIndex_window_ordered_in_bounds {A : Type} (data : list A) (gap : Z)
  (scaleValues : list Q) (startX endX : Q) :
  data <> [] -> 1 <= gap ->
  non_decreasing scaleValues ->
  List.length scaleValues = List.length data ->
  let r := getIndex startX endX scaleValues gap data in
  let r' := getIndex endX startX scaleValues gap data in
  (0 <= startIndex r /\ startIndex r <= endIndex r /\
   endIndex r <= Js.length data - 1) /\
  (0 <= startIndex r' /\ startIndex r' <= endIndex r' /\
   endIndex r' <= Js.length data - 1).
Proof.
  intros Hdata Hgap _ Hlen.
  assert (scaleValues <> []) as Hne.
  { destruct scaleValues; [| discriminate].
    destruct data; [congruence | discriminate]. }
  assert (Js.length scaleValues = Js.length data) as HL
      by (unfold Js.length; now rewrite Hlen).
  split; apply getIndex_window; assumption.
Qed.

Example createScale_ex1 :
  option_map (map Qred)
    (cs_scaleValues (createScale (Some [tt; tt; tt; tt; tt; tt]) 0 5
                                 (65 # 1) (930 # 1) (5 # 1)))
  = Some [65 # 1; 250 # 1; 435 # 1; 620 # 1; 805 # 1; 990 # 1].
Proof. reflexivity. Qed.

Example createScale_ex_single :
  option_map (map Qred)
    (cs_scaleValues (createScale (Some [tt]) 0 0 0 (10 # 1) (5 # 1)))
  = Some [5 # 2].
Proof. reflexivity. Qed.

Example createScale_ex_reversed :
  option_map (map Qred)
    (cs_scaleValues (createScale (Some [tt; tt; tt]) 0 2 (10 # 1) (1 # 1) (5 # 1)))
  = Some [10 # 1; 8 # 1; 6 # 1].
Proof. reflexivity. Qed.

(** ** Facts about the point scale *)

Lemma range_length (n : Z) : 0 <= n -> Js.length (range 0 n) = n.
Proof.
  intros Hn. unfold Js.length, range.
  rewrite length_map, length_seq. lia.
Qed.

Lemma range_nth (n i : Z) :
  0 <= i < n -> nth_error (range 0 n) (Z.to_nat i) = Some i.
Proof.
  intros Hi. unfold range.
  rewrite nth_error_map, nth_error_seq.
  destruct (Nat.ltb_spec (Z.to_nat i) (Z.to_nat (n - 0))) as [_ | Hge]; [| lia].
  simpl. f_equal. lia.
Qed.

Lemma domain_index_seq (m : nat) :
  forall (a : nat) (d off : Z),
    0 <= off ->
    domain_index_from (map (fun k => 0 + Z.of_nat k) (seq a m)) d off =
    if (Z.of_nat a <=? d) && (d <? Z.of_nat a + Z.of_nat m)
    then off + (d - Z.of_nat a) else -1.
Proof.
  induction m as [| m IH]; intros a d off Hoff.
  - simpl. destruct (Z.of_nat a <=? d) eqn:E1, (d <? Z.of_nat a + 0) eqn:E2;
      simpl; try reflexivity.
    apply Z.leb_le in E1. apply Z.ltb_lt in E2. lia.
  - cbn [seq map domain_index_from].
    destruct (0 + Z.of_nat a =? d) eqn:E.
    + apply Z.eqb_eq in E.
      assert ((Z.of_nat a <=? d) = true) as -> by (apply Z.leb_le; lia).
      assert ((d <? Z.of_nat a + Z.of_nat (S m)) = true) as ->
          by (apply Z.ltb_lt; lia).
      simpl. lia.
    + apply Z.eqb_neq in E. rewrite IH by lia.
      destruct (Z.of_nat (S a) <=? d) eqn:E1, (d <? Z.of_nat (S a) + Z.of_nat m) eqn:E2;
        cbn [andb];
        destruct (Z.of_nat a <=? d) eqn:E3, (d <? Z.of_nat a + Z.of_nat (S m)) eqn:E4;
        cbn [andb]; try reflexivity;
        repeat match goal with
          | H : (_ <=? _) = true |- _ => apply Z.leb_le in H
          | H : (_ <=? _) = false |- _ => apply Z.leb_gt in H
          | H : (_ <? _) = true |- _ => apply Z.ltb_lt in H
          | H : (_ <? _) = false |- _ => apply Z.ltb_ge in H
          end; lia.
Qed.

Lemma domain_index_range (n d : Z) :
  0 <= n ->
  domain_index_from (range 0 n) d 0 = if (0 <=? d) && (d <? n) then d else -1.
Proof.
  intros Hn. unfold range. rewrite domain_index_seq by lia.
  simpl Z.of_nat. rewrite Z.sub_0_r, Z2Nat.id by lia.
  rewrite Z.add_0_l. destruct ((0 <=? d) && (d <? n)); lia.
Qed.

Lemma inject_Z_nonzero (k : Z) : k <> 0 -> ~ (inject_Z k == 0)%Q.
Proof.
  intros Hk H. apply Hk. unfold Qeq, inject_Z in H. simpl in H. lia.
Qed.

(** Where the scale of [createScale] puts index [i]: the middle of the
    range when there is a single point, otherwise [i] equal steps from [r0]. *)
Lemma sp_apply_point (n i : Z) (r0 r1 : Q) :
  0 <= i < n ->
  exists v, sp_apply (mkScale (range 0 n) (r0, r1)) i = Some v /\
    (v == if n =? 1 then r0 + (r1 - r0) * (1 # 2)
          else r0 + inject_Z i * ((r1 - r0) / inject_Z (n - 1)))%Q.
Proof.
  intros Hi. unfold sp_apply. cbn [sp_domain].
  rewrite domain_index_range by lia.
  assert ((0 <=? i) && (i <? n) = true) as ->.
  { apply andb_true_iff. split; [apply Z.leb_le | apply Z.ltb_lt]; lia. }
  assert ((i =? -1) = false) as -> by (apply Z.eqb_neq; lia).
  unfold Js.get. assert ((i <? 0) = false) as -> by (apply Z.ltb_ge; lia).
  unfold sp_values. cbn [sp_domain sp_range]. rewrite range_length by lia.
  destruct (Js.ltb r1 r0) eqn:Hrev.
  - rewrite nth_error_rev, length_map.
    assert (List.length (range 0 n) = Z.to_nat n) as Hlen.
    { pose proof (range_length n) as H. unfold Js.length in H. lia. }
    rewrite Hlen.
    destruct (Nat.ltb_spec (Z.to_nat i) (Z.to_nat n)) as [_ | Hge]; [| lia].
    replace (Z.to_nat n - S (Z.to_nat i))%nat with (Z.to_nat (n - 1 - i)) by lia.
    rewrite nth_error_map, range_nth by lia. cbn [option_map].
    eexists. split; [reflexivity |].
    destruct (n =? 1) eqn:E1.
    + apply Z.eqb_eq in E1. assert (i = 0) by lia. subst n i.
      change (inject_Z (Z.max 1 (1 - 1))) with 1%Q.
      change (inject_Z (1 - 1 - 0)) with 0%Q.
      change (inject_Z (1 - 1)) with 0%Q. field.
    + apply Z.eqb_neq in E1. rewrite Z.max_r by lia.
      replace (n - 1 - i) with ((n - 1) + - i) by lia.
      rewrite inject_Z_plus, inject_Z_opp.
      pose proof (inject_Z_nonzero (n - 1)) as Hnz. field. apply Hnz. lia.
  - rewrite nth_error_map, range_nth by lia. cbn [option_map].
    eexists. split; [reflexivity |].
    destruct (n =? 1) eqn:E1.
    + apply Z.eqb_eq in E1. assert (i = 0) by lia. subst n i.
      change (inject_Z (Z.max 1 (1 - 1))) with 1%Q.
      change (inject_Z (1 - 1)) with 0%Q.
      change (inject_Z 0) with 0%Q. field.
    + apply Z.eqb_neq in E1. rewrite Z.max_r by lia.
      pose proof (inject_Z_nonzero (n - 1)) as Hnz. field. apply Hnz. lia.
Qed.

Lemma map_defined_total {A B : Type} (f : A -> option B) (arr : list A) :
  (forall a, In a arr -> exists b, f a = Some b) ->
  exists out, map_defined f arr = Some out /\
              List.length out = List.length arr /\
              forall k a, nth_error arr k = Some a -> nth_error out k = f a.
Proof.
  induction arr as [| a arr IH]; intros Hdef.
  - exists []. split; [reflexivity |]. split; [reflexivity |].
    intros [| k] a H; discriminate.
  - destruct (Hdef a (or_introl eq_refl)) as [b Hb].
    destruct IH as (out & Hout & Hlen & Hnth).
    { intros a' Ha'. apply Hdef. now right. }
    exists (b :: out). cbn [map_defined]. rewrite Hb, Hout.
    split; [reflexivity |]. split; [simpl; now rewrite Hlen |].
    intros [| k] a' Hk; simpl in *; [congruence | now apply Hnth].
Qed.

Lemma range_In (n d : Z) : In d (range 0 n) -> 0 <= d < n.
Proof.
  unfold range. rewrite in_map_iff. intros (k & <- & Hk).
  apply in_seq in Hk. lia.
Qed.

(** The table of [createScale] has one entry per data index, and entry [i]
    is the scale applied to [i]. *)
Lemma createScale_table {A : Type} (d : list A) (si ei : Z) (x w tw : Q) :
  d <> [] ->
  let sc := mkScale (range 0 (Js.length d)) (x, (x + w - tw)%Q) in
  exists sv,
    createScale (Some d) si ei x w tw =
      {| cs_startX := sp_apply sc si; cs_endX := sp_apply sc ei;
         cs_scale := Some sc; cs_scaleValues := Some sv |} /\
    List.length sv = List.length d /\
    forall i, 0 <= i < Js.length d -> Js.get sv i = sp_apply sc i.
Proof.
  intros Hne sc.
  assert (0 <= Js.length d) as Hn by (unfold Js.length; lia).
  destruct (map_defined_total (sp_apply sc) (range 0 (Js.length d)))
    as (sv & Hsv & Hlen & Hnth).
  { intros a Ha. apply range_In in Ha.
    destruct (sp_apply_point (Js.length d) a x (x + w - tw)%Q Ha) as (v & Hv & _).
    now exists v. }
  exists sv. split; [| split].
  - unfold createScale. destruct d as [| a0 d0]; [congruence |].
    cbv zeta. cbn [sp_domain]. fold sc. now rewrite Hsv.
  - rewrite Hlen. pose proof (range_length (Js.length d) Hn) as H.
    unfold Js.length in *. lia.
  - intros i Hi. unfold Js.get.
    assert ((i <? 0) = false) as -> by (apply Z.ltb_ge; lia).
    apply Hnth. now apply range_nth.
Qed.

(** ** Claims about the positional scale *)

(** C3, as stated, at one data point: the single index would have to sit at
    [pixelStart = 0] and at [pixelStart + pixelWidth - travellerWidth = 5]
    at once; the scale puts it at 5/2. *)
Lemma createScale_single_point_not_at_both_ends :
  let r := createScale (Some [tt]) 0 0 0 (10 # 1) (5 # 1) in
  exists sc v,
    cs_scale r = Some sc /\ sp_apply sc 0 = Some v /\ (v == 5 # 2)%Q /\
    ~ ((v == 0)%Q /\
       exists v', sp_apply sc (Js.length [tt] - 1) = Some v' /\
                  (v' == 0 + (10 # 1) - (5 # 1))%Q).
Proof.
  cbv zeta. eexists. eexists.
  split; [reflexivity |]. split; [reflexivity |].
  split; [reflexivity |].
  intros [H _]. vm_compute in H. discriminate.
Qed.

(** C3 (amended). For a non-empty data array and any pixel geometry: with
    at least two data points, index 0 is at [x], index [length - 1] at
    [x + width - travellerWidth], and neighbouring indices are
    [(width - travellerWidth) / (length - 1)] apart; with a single data
    point the index is in the middle of the range. *)
Theorem createScale_endpoints_and_spacing {A : Type} (data : list A)
  (si ei : Z) (x width travellerWidth : Q) :
  data <> [] ->
  let n := Js.length data in
  exists sc sv,
    createScale (Some data) si ei x width travellerWidth =
      {| cs_startX := sp_apply sc si; cs_endX := sp_apply sc ei;
         cs_scale := Some sc; cs_scaleValues := Some sv |} /\
    List.length sv = List.length data /\
    (forall i, 0 <= i < n -> Js.get sv i = sp_apply sc i) /\
    (2 <= n ->
     (exists v0, sp_apply sc 0 = Some v0 /\ (v0 == x)%Q) /\
     (exists vl, sp_apply sc (n - 1) = Some vl /\
                 (vl == x + width - travellerWidth)%Q) /\
     (forall i, 0 <= i < n - 1 ->
        exists a b, sp_apply sc i = Some a /\ sp_apply sc (i + 1) = Some b /\
                    (b - a == (width - travellerWidth) / inject_Z (n - 1))%Q)) /\
    (n = 1 ->
     exists v0, sp_apply sc 0 = Some v0 /\
                (v0 == x + (width - travellerWidth) * (1 # 2))%Q).
Proof.
  intros Hne n.
  destruct (createScale_table data si ei x width travellerWidth Hne)
    as (sv & Hcs & Hlen & Hget).
  set (sc := mkScale (range 0 (Js.length data)) (x, (x + width - travellerWidth)%Q)) in *.
  exists sc, sv. fold n in Hget.
  split; [exact Hcs |]. split; [exact Hlen |]. split; [exact Hget |].
  assert (forall i, 0 <= i < n -> 2 <= n ->
            exists v, sp_apply sc i = Some v /\
              (v == x + inject_Z i * ((width - travellerWidth) / inject_Z (n - 1)))%Q)
    as Hpt.
  { intros i Hi Hn2.
    destruct (sp_apply_point n i x (x + width - travellerWidth)%Q Hi)
      as (v & Hv & Heq).
    exists v. split; [exact Hv |].
    assert ((n =? 1) = false) as E by (apply Z.eqb_neq; lia).
    rewrite E in Heq. rewrite Heq.
    pose proof (inject_Z_nonzero (n - 1)) as Hnz. field. apply Hnz. lia. }
  split.
  - intros Hn2. split; [| split].
    + destruct (Hpt 0) as (v & Hv & Heq); try lia.
      exists v. split; [exact Hv |]. rewrite Heq.
      change (inject_Z 0) with 0%Q.
      pose proof (inject_Z_nonzero (n - 1)) as Hnz. field. apply Hnz. lia.
    + destruct (Hpt (n - 1)) as (v & Hv & Heq); try lia.
      exists v. split; [exact Hv |]. rewrite Heq.
      pose proof (inject_Z_nonzero (n - 1)) as Hnz. field. apply Hnz. lia.
    + intros i Hi.
      destruct (Hpt i) as (a & Ha & Heqa); try lia.
      destruct (Hpt (i + 1)) as (b & Hb & Heqb); try lia.
      exists a, b. split; [exact Ha |]. split; [exact Hb |].
      rewrite Heqa, Heqb, inject_Z_plus. change (inject_Z 1) with 1%Q.
      pose proof (inject_Z_nonzero (n - 1)) as Hnz. field. apply Hnz. lia.
  - intros Hn1.
    destruct (sp_apply_point n 0 x (x + width - travellerWidth)%Q)
      as (v & Hv & Heq); [lia |].
    exists v. split; [exact Hv |].
    assert ((n =? 1) = true) as E by (apply Z.eqb_eq; lia).
    rewrite E in Heq. rewrite Heq. ring.
Qed.

Lemma createScale_endpoints_and_spacing_witness :
  exists sc sv,
    createScale (Some [tt; tt; tt]) 0 2 (10 # 1) (25 # 1) (5 # 1) =
      {| cs_startX := sp_apply sc 0; cs_endX := sp_apply sc 2;
         cs_scale := Some sc; cs_scaleValues := Some sv |} /\
    List.length sv = 3%nat.
Proof.
  destruct (createScale_endpoints_and_spacing [tt; tt; tt] 0 2
              (10 # 1) (25 # 1) (5 # 1)) as (sc & sv & H1 & H2 & _).
  - discriminate.
  - exists sc, sv. split; [exact H1 | exact H2].
Defined.

(** C7, as stated, at [pixelWidth = handleWidth = 5] with two data points:
    the scale is populated, with both coordinates at [pixelStart]. *)
Lemma createScale_populated_when_width_not_above_handle :
  ((5 # 1) <= (5 # 1))%Q /\
  let r := createScale (Some [tt; tt]) 0 1 0 (5 # 1) (5 # 1) in
  r <> empty_scale /\
  option_map (map Qred) (cs_scaleValues r) = Some [0%Q; 0%Q].
Proof.
  split; [apply Qle_refl |]. cbv zeta. split; [| reflexivity].
  intros H. apply (f_equal cs_scale) in H. discriminate.
Qed.

(** C7 (amended). [createScale] yields the empty object exactly when the
    data is missing or empty; for non-empty data it yields a populated
    scale with one coordinate per data index, whatever the width and the
    traveller width are. *)
Theorem createScale_empty_iff_no_data {A : Type} (data : option (list A))
  (si ei : Z) (x width travellerWidth : Q) :
  (createScale data si ei x width travellerWidth = empty_scale <->
   data = None \/ data = Some []) /\
  (forall d, data = Some d -> d <> [] ->
     exists sc sv,
       cs_scale (createScale data si ei x width travellerWidth) = Some sc /\
       cs_scaleValues (createScale data si ei x width travellerWidth) = Some sv /\
       List.length sv = List.length d).
Proof.
  split.
  - split.
    + destruct data as [[| a d] |]; auto.
      intros H. apply (f_equal cs_scale) in H. discriminate.
    + intros [-> | ->]; reflexivity.
  - intros d -> Hne.
    destruct (createScale_table d si ei x width travellerWidth Hne)
      as (sv & Hcs & Hlen & _).
    rewrite Hcs. cbn [cs_scale cs_scaleValues]. eauto.
Qed.

(** ** Facts about the pointer handlers *)

Lemma js_ltb_true (a b : Q) : Js.ltb a b = true <-> (a < b)%Q.
Proof.
  unfold Js.ltb. rewrite negb_true_iff. split.
  - intros H. apply Qnot_le_lt. intros Hle. apply Qle_bool_iff in Hle. congruence.
  - intros H. destruct (Qle_bool b a) eqn:E; [| reflexivity].
    apply Qle_bool_iff in E. lra.
Qed.

Lemma js_ltb_false (a b : Q) : Js.ltb a b = false <-> (b <= a)%Q.
Proof.
  unfold Js.ltb. rewrite negb_false_iff. apply Qle_bool_iff.
Qed.

Lemma js_leb_true (a b : Q) : Js.leb a b = true <-> (a <= b)%Q.
Proof. apply Qle_bool_iff. Qed.

Lemma clamped_delta_on_track {A : Type} (p : BrushWithStateProps A)
  (prevValue delta : Q) :
  on_track p prevValue -> on_track p (prevValue + clamped_delta p prevValue delta)%Q.
Proof.
  unfold on_track, clamped_delta. intros [Hlo Hhi].
  destruct (Js.ltb 0 delta) eqn:Hpos.
  - apply js_ltb_true in Hpos.
    destruct (Q.min_spec delta (p_x p + p_width p - p_travellerWidth p - prevValue)%Q)
      as [[Hlt ->] | [Hle ->]]; lra.
  - apply js_ltb_false in Hpos.
    destruct (Js.ltb delta 0) eqn:Hneg.
    + apply js_ltb_true in Hneg.
      destruct (Q.max_spec delta (p_x p - prevValue)%Q)
        as [[Hlt ->] | [Hle ->]]; lra.
    + apply js_ltb_false in Hneg. lra.
Qed.

(** One pointer move of a traveller drag: the handler of a render that
    recorded the handle and the start coordinate returns; it moves only the
    dragged handle, by the delta clamped against the position the render
    captured, and records the pointer coordinate. *)
Lemma handleTravellerMove_step {A : Type} (p : BrushWithStateProps A)
  (scaleValues : list Q) (c prev : BrushState) (pageX : Q)
  (id : BrushTravellerId) (moveStartX : Q) :
  movingTravellerId c = Some id -> brushMoveStartX c = Some moveStartX ->
  exists s' notes,
    handleTravellerMove p scaleValues c prev pageX = Some (s', notes) /\
    isTravellerMoving s' = isTravellerMoving prev /\
    isSlideMoving s' = isSlideMoving prev /\
    movingTravellerId s' = movingTravellerId prev /\
    brushMoveStartX s' = Some pageX /\
    slideMoveStartX s' = slideMoveStartX prev /\
    position id (travellerPositions s') =
      (position id (travellerPositions prev) +
       clamped_delta p (position id (travellerPositions c)) (pageX - moveStartX))%Q /\
    position (other_id id) (travellerPositions s') =
      position (other_id id) (travellerPositions prev).
Proof.
  intros Hid Hstart. unfold handleTravellerMove. rewrite Hid, Hstart.
  cbv zeta. fold (clamped_delta p (position id (travellerPositions c))
                    (pageX - moveStartX)%Q).
  destruct id; cbn [set_param par_startX par_endX];
    eexists; eexists; (split; [reflexivity |]);
    cbn [isTravellerMoving isSlideMoving movingTravellerId brushMoveStartX
         slideMoveStartX travellerPositions
         position set_position other_id startX endX]; auto 10.
Qed.

Lemma position_cases (id : BrushTravellerId) (tp : TravellerPositions) (P : Q -> Prop) :
  P (position id tp) -> P (position (other_id id) tp) ->
  P (startX tp) /\ P (endX tp).
Proof. destruct id; simpl; auto. Qed.

Lemma integral_Qeq (a b : Q) : (a == b)%Q -> integral a -> integral b.
Proof. intros Hab [z Hz]. exists z. now rewrite <- Hab. Qed.

Lemma integral_plus (a b : Q) : integral a -> integral b -> integral (a + b).
Proof.
  intros [x Hx] [y Hy]. exists (x + y). now rewrite inject_Z_plus, Hx, Hy.
Qed.

Lemma integral_minus (a b : Q) : integral a -> integral b -> integral (a - b).
Proof.
  intros [x Hx] [y Hy]. exists (x + - y).
  rewrite inject_Z_plus, inject_Z_opp, Hx, Hy. reflexivity.
Qed.

Lemma pixel_value_integral (v : Q) : pixel_value v -> integral v.
Proof. intros (z & Hz & _). now exists z. Qed.

(** Where a clamped move ends: where the pointer takes the handle, or at
    one end of the track. *)
Lemma clamped_position_cases {A : Type} (p : BrushWithStateProps A)
  (prevValue delta : Q) :
  (prevValue + clamped_delta p prevValue delta == prevValue + delta)%Q \/
  (prevValue + clamped_delta p prevValue delta
   == p_x p + p_width p - p_travellerWidth p)%Q \/
  (prevValue + clamped_delta p prevValue delta == p_x p)%Q.
Proof.
  unfold clamped_delta.
  destruct (Js.ltb 0 delta).
  - destruct (Q.min_spec delta (p_x p + p_width p - p_travellerWidth p - prevValue)%Q)
      as [[_ ->] | [_ ->]]; [left; reflexivity | right; left; ring].
  - destruct (Js.ltb delta 0); [| left; reflexivity].
    destruct (Q.max_spec delta (p_x p - prevValue)%Q)
      as [[_ ->] | [_ ->]]; [right; right; ring | left; reflexivity].
Qed.

Lemma clamped_delta_whole {A : Type} (p : BrushWithStateProps A)
  (prevValue delta : Q) :
  exact_geometry p -> integral delta -> whole_on_track p prevValue ->
  whole_on_track p (prevValue + clamped_delta p prevValue delta)%Q.
Proof.
  intros (Hx & Hw & Ht) Hd [Hint Hon].
  split; [| now apply clamped_delta_on_track].
  apply pixel_value_integral in Hx, Hw, Ht.
  destruct (clamped_position_cases p prevValue delta) as [E | [E | E]];
    apply (integral_Qeq _ _ (Qeq_sym _ _ E)).
  - now apply integral_plus.
  - apply integral_minus; [now apply integral_plus | exact Ht].
  - exact Hx.
Qed.

Lemma dragging_step {A : Type} (p : BrushWithStateProps A)
  (scaleValues : list Q) (id : BrushTravellerId) (s : BrushState) (pageX : Q) :
  exact_geometry p -> pixel_value pageX -> dragging p id s ->
  exists s' notes,
    handleDrag p scaleValues s s pageX = Some (s', notes) /\
    dragging p id s' /\
    position (other_id id) (travellerPositions s') =
      position (other_id id) (travellerPositions s).
Proof.
  intros Hgeo Hpx (Hmov & Hid & (b & Hb & Hbpx) & Hs & He).
  destruct (handleTravellerMove_step p scaleValues s s pageX id b Hid Hb)
    as (s' & notes & Hrun & Hmov' & _ & Hid' & Hb' & _ & Hpos & Hother).
  exists s', notes. unfold handleDrag. rewrite Hmov.
  split; [exact Hrun |]. split; [| exact Hother].
  unfold dragging. rewrite Hmov', Hid', Hb'.
  split; [exact Hmov |]. split; [exact Hid |]. split; [eauto |].
  apply (position_cases id (travellerPositions s') (whole_on_track p)).
  - rewrite Hpos. apply clamped_delta_whole; [exact Hgeo | | destruct id; assumption].
    apply integral_minus; now apply pixel_value_integral.
  - rewrite Hother. destruct id; assumption.
Qed.

Lemma drag_moves_invariant {A : Type} (p : BrushWithStateProps A)
  (scaleValues : list Q) (id : BrushTravellerId) (steps : list DragStep) :
  exact_geometry p ->
  forall (fresh : bool) (c s : BrushState),
    moves_rendered fresh steps = true -> Forall step_exact steps ->
    (fresh = true -> c = s) -> dragging p id s ->
    exists s', drag_moves p scaleValues c s steps = Some s' /\
               dragging p id s' /\
               position (other_id id) (travellerPositions s') =
                 position (other_id id) (travellerPositions s).
Proof.
  intros Hgeo. induction steps as [| st rest IH]; intros fresh c s Hr Hex Hc Hs.
  - exists s. split; [reflexivity |]. split; [exact Hs | reflexivity].
  - apply Forall_cons_iff in Hex as [Hst Hex]. destruct st as [pageX |].
    + cbn [moves_rendered] in Hr. apply andb_true_iff in Hr as [Hf Hr].
      rewrite (Hc Hf). cbn [step_exact] in Hst.
      destruct (dragging_step p scaleValues id s pageX Hgeo Hst Hs)
        as (s1 & notes & Hrun & Hs1 & Ho1).
      destruct (IH false s s1 Hr Hex) as (s' & Hrest & Hs' & Ho');
        [discriminate | exact Hs1 |].
      exists s'. cbn [drag_moves]. rewrite Hrun.
      split; [exact Hrest |]. split; [exact Hs' |]. congruence.
    + cbn [moves_rendered] in Hr. cbn [drag_moves].
      apply (IH true s s Hr Hex); [reflexivity | exact Hs].
Qed.

(** ** Claims about the pointer drag *)

(** C5, as stated, on the brush [four_points].  By design nothing clamps
    the dragged handle against its partner: with the handles at 0 and 10, a
    drag of the start handle to pixel 20 puts it at 20, past the end handle.
    And the bound on the track holds only for a handler that has seen the
    previous move: when two moves (to 10, then to 0) reach the handlers of
    one render, the end handle goes from 30 to -20, off the track. *)
Lemma traveller_drag_passes_other_handle_and_leaves_track :
  (let s0 := handleTravellerDragStart id_startX 0 four_points_close in
   exists s1 notes,
     handleDrag four_points four_points_table s0 s0 (20 # 1) = Some (s1, notes) /\
     (startX (travellerPositions s0) < endX (travellerPositions s0))%Q /\
     (endX (travellerPositions s1) < startX (travellerPositions s1))%Q) /\
  (let s0 := handleTravellerDragStart id_endX (30 # 1) four_points_idle in
   exists s2,
     drag_moves four_points four_points_table s0 s0 [Move (10 # 1); Move 0]
     = Some s2 /\
     (endX (travellerPositions s2) == -20 # 1)%Q /\
     ~ on_track four_points (endX (travellerPositions s2))).
Proof.
  split; cbv zeta.
  - eexists. eexists. split; [reflexivity |]. split; reflexivity.
  - eexists. split; [reflexivity |]. split; [reflexivity |].
    unfold on_track. cbn. intros [H _]. revert H. unfold Qle. simpl. lia.
Qed.

(** C5 (amended).  On pixel values (whole numbers, where the source's
    arithmetic is exact), in a traveller drag that starts with both handles
    on the track [[x, x + width - travellerWidth]]: a move event handled by
    a render that has seen the previous move is handled, moves the dragged
    handle by the clamped delta to a position still on the track, and
    leaves the other handle where it was; the same holds after every
    sequence of move events with a render between each two.  (The dragged
    handle is not kept from passing the other one.) *)
Theorem traveller_drag_rendered_moves_stay_on_track {A : Type}
  (p : BrushWithStateProps A) (scaleValues : list Q) (s : BrushState)
  (id : BrushTravellerId) (pageX0 : Q) (steps : list DragStep) :
  exact_geometry p ->
  whole_on_track p (startX (travellerPositions s)) ->
  whole_on_track p (endX (travellerPositions s)) ->
  pixel_value pageX0 ->
  Forall step_exact steps -> moves_rendered true steps = true ->
  (forall s1 moveStartX pageX,
      movingTravellerId s1 = Some id ->
      brushMoveStartX s1 = Some moveStartX ->
      pixel_value moveStartX -> pixel_value pageX ->
      whole_on_track p (position id (travellerPositions s1)) ->
      exists s2 notes,
        handleTravellerMove p scaleValues s1 s1 pageX = Some (s2, notes) /\
        whole_on_track p (position id (travellerPositions s2)) /\
        position (other_id id) (travellerPositions s2) =
          position (other_id id) (travellerPositions s1)) /\
  (let s0 := handleTravellerDragStart id pageX0 s in
   exists s',
     drag_moves p scaleValues s0 s0 steps = Some s' /\
     on_track p (position id (travellerPositions s')) /\
     on_track p (startX (travellerPositions s')) /\
     on_track p (endX (travellerPositions s')) /\
     position (other_id id) (travellerPositions s') =
       position (other_id id) (travellerPositions s)).
Proof.
  intros Hgeo Hs He Hpx0 Hex Hr. split.
  - intros s1 b pageX Hid Hb Hbpx Hpx Hon.
    destruct (handleTravellerMove_step p scaleValues s1 s1 pageX id b Hid Hb)
      as (s2 & notes & Hrun & _ & _ & _ & _ & _ & Hpos & Hother).
    exists s2, notes. split; [exact Hrun |]. split; [| exact Hother].
    rewrite Hpos. apply clamped_delta_whole; [exact Hgeo | | exact Hon].
    apply integral_minus; now apply pixel_value_integral.
  - cbv zeta.
    destruct (drag_moves_invariant p scaleValues id steps Hgeo true
                (handleTravellerDragStart id pageX0 s)
                (handleTravellerDragStart id pageX0 s) Hr Hex)
      as (s' & Hrun & (_ & _ & _ & [_ Hs'] & [_ He']) & Hother).
    { reflexivity. }
    { unfold dragging, handleTravellerDragStart; simpl. eauto 7. }
    exists s'. split; [exact Hrun |].
    split; [destruct id; assumption |]. auto.
Qed.

Example four_points_table_is_createScale :
  option_map (map Qred)
    (cs_scaleValues (createScale (Some (p_data four_points)) 0 3 (p_x four_points)
                       (p_width four_points) (p_travellerWidth four_points)))
  = Some four_points_table.
Proof. reflexivity. Qed.


(** The slide drag of a render that has seen the previous move reports the
    window of the positions it moves to. *)
Lemma handleSlideDrag_reports_new_positions {A : Type}
  (p : BrushWithStateProps A) (scaleValues : list Q) (s s' : BrushState)
  (pageX : Q) (notes : list BrushStartEndIndex) :
  handleSlideDrag p scaleValues s s pageX = Some (s', notes) ->
  forall w, In w notes ->
    w = getIndex (startX (travellerPositions s')) (endX (travellerPositions s'))
                 scaleValues (p_gap p) (p_data p).
Proof.
  unfold handleSlideDrag.
  destruct (slideMoveStartX s) as [b |]; [| discriminate].
  cbv zeta. intros H; injection H as <- <-; intros w Hw.
  cbn [travellerPositions startX endX].
  destruct (negb _ || negb _); simpl in Hw; intuition.
Qed.

(** C4. Dragging the end handle of [four_points] from pixel 30 to pixel 10
    moves it to coordinate 10, whose window is (0, 1); the change
    notification of that very step carries (0, 3), the window of the
    positions before the step.  The keyboard move has the same defect:
    ArrowLeft on the end handle moves it to coordinate 20, window (0, 2),
    and notifies (0, 3). *)
Theorem traveller_move_notifies_window_of_previous_positions :
  let p := four_points in
  let sv := four_points_table in
  let window s := getIndex (startX (travellerPositions s))
                           (endX (travellerPositions s)) sv (p_gap p) (p_data p) in
  (exists s1,
      handleDrag p sv (handleTravellerDragStart id_endX (30 # 1) four_points_idle)
                 (handleTravellerDragStart id_endX (30 # 1) four_points_idle)
                 (10 # 1)
      = Some (s1, [{| startIndex := 0; endIndex := 3 |}]) /\
      (endX (travellerPositions s1) == 10 # 1)%Q /\
      window s1 = {| startIndex := 0; endIndex := 1 |}) /\
  (exists s1,
      handleTravellerMoveKeyboard p sv four_points_idle ArrowLeft id_endX
      = (s1, [{| startIndex := 0; endIndex := 3 |}]) /\
      (endX (travellerPositions s1) == 20 # 1)%Q /\
      window s1 = {| startIndex := 0; endIndex := 2 |}).
Proof.
  cbv zeta. split; eexists; (split; [reflexivity |]); split; reflexivity.
Qed.

(** ** Facts about the keyboard handler *)

Lemma js_get_nth {A : Type} (arr : list A) (i : Z) (a : A) :
  Js.get arr i = Some a <-> 0 <= i /\ nth_error arr (Z.to_nat i) = Some a.
Proof.
  unfold Js.get. destruct (i <? 0) eqn:E.
  - apply Z.ltb_lt in E. split; [discriminate | lia].
  - apply Z.ltb_ge in E. tauto.
Qed.

Lemma js_get_range {A : Type} (arr : list A) (i : Z) (a : A) :
  Js.get arr i = Some a -> 0 <= i < Js.length arr.
Proof.
  intros H. apply js_get_nth in H as [H0 H].
  assert (Z.to_nat i < List.length arr)%nat by (apply nth_error_Some; congruence).
  unfold Js.length. lia.
Qed.

Lemma get_In {A : Type} (arr : list A) (i : Z) (a : A) :
  Js.get arr i = Some a -> In a arr.
Proof.
  intros H. apply js_get_nth in H as [_ H]. eapply nth_error_In; eauto.
Qed.

Lemma js_eqb_true (a b : Q) : Js.eqb a b = true <-> (a == b)%Q.
Proof. apply Qeq_bool_iff. Qed.

(** [indexOf] returns the first position holding the value, or [-1] when
    no position does. *)
Lemma indexOf_from_spec (arr : list Q) (v : Q) :
  forall i, 0 <= i ->
    (Js.indexOf_from arr v i = -1 /\
     forall k a, nth_error arr k = Some a -> ~ (a == v)%Q) \/
    (exists k a,
        Js.indexOf_from arr v i = i + Z.of_nat k /\
        nth_error arr k = Some a /\ (a == v)%Q /\
        forall k' a', (k' < k)%nat -> nth_error arr k' = Some a' -> ~ (a' == v)%Q).
Proof.
  induction arr as [| a arr IH]; intros i Hi.
  - left. split; [reflexivity |]. intros [| k] a H; discriminate.
  - cbn [Js.indexOf_from]. destruct (Js.eqb a v) eqn:E.
    + right. exists 0%nat, a. apply js_eqb_true in E.
      repeat split; [lia | exact E | intros k' a' Hk'; lia].
    + assert (~ (a == v)%Q) as Hav.
      { intros H. apply js_eqb_true in H. congruence. }
      destruct (IH (i + 1)) as [[Hm Hnone] | (k & b & Hk & Hnth & Hb & Hfirst)];
        [lia | |].
      * left. split; [exact Hm |].
        intros [| k] b Hb; simpl in Hb; [congruence | eauto].
      * right. exists (S k), b. repeat split; [lia | exact Hnth | exact Hb |].
        intros [| k'] a' Hlt Ha'; simpl in Ha'; [congruence |].
        apply (Hfirst k' a'); [lia | exact Ha'].
Qed.

Lemma indexOf_range (arr : list Q) (v : Q) :
  Js.indexOf arr v = -1 \/ 0 <= Js.indexOf arr v < Js.length arr.
Proof.
  unfold Js.indexOf.
  destruct (indexOf_from_spec arr v 0) as [[H _] | (k & a & Hk & Hnth & _)];
    [lia | now left |].
  right. rewrite Hk.
  assert (k < List.length arr)%nat by (apply nth_error_Some; congruence).
  unfold Js.length. lia.
Qed.

Lemma js_get_defined {A : Type} (arr : list A) (i : Z) :
  0 <= i < Js.length arr -> exists a, Js.get arr i = Some a.
Proof.
  intros Hi. unfold Js.get.
  assert ((i <? 0) = false) as -> by (apply Z.ltb_ge; lia).
  destruct (nth_error arr (Z.to_nat i)) as [a |] eqn:E; [eauto |].
  apply nth_error_None in E. unfold Js.length in Hi. lia.
Qed.

(** In a strictly increasing table a coordinate is found where it stands. *)
Lemma indexOf_strictly_increasing (table : list Q) (i : Z) (a v : Q) :
  strictly_increasing table ->
  Js.get table i = Some a -> (v == a)%Q -> Js.indexOf table v = i.
Proof.
  intros Hinc Hget Hv. unfold Js.get in Hget.
  destruct (i <? 0) eqn:Hneg; [discriminate |]. apply Z.ltb_ge in Hneg.
  unfold Js.indexOf.
  destruct (indexOf_from_spec table v 0) as [[_ Hnone] | (k & b & Hk & Hnth & Hb & Hfirst)];
    [lia | |].
  - exfalso. apply (Hnone _ _ Hget). now symmetry.
  - rewrite Hk.
    destruct (Nat.lt_trichotomy k (Z.to_nat i)) as [Hlt | [Heq | Hgt]].
    + pose proof (Hinc k (Z.to_nat i) b a Hlt Hnth Hget). lra.
    + lia.
    + exfalso. apply (Hfirst (Z.to_nat i) a Hgt Hget). now symmetry.
Qed.

Lemma would_invert_test (id : BrushTravellerId) (v : Q) (tp : TravellerPositions) :
  (match id with
   | id_startX => Js.leb (endX tp) v
   | id_endX => Js.leb v (startX tp)
   end) = true <-> would_invert id v tp.
Proof. destruct id; simpl; apply js_leb_true. Qed.

(** ** Claim about the keyboard move *)

(** C6, as stated, on the brush [four_points] with the end handle at pixel
    18, where a pointer drag may leave it: the table holds 10 and 20 on
    either side, ArrowRight would take the handle to the adjacent
    coordinate 20, which is inside the table and right of the start handle
    -- yet the press is refused, because 18 is no coordinate of the table. *)
Lemma keyboard_refuses_handle_off_table :
  Js.get four_points_table 1 = Some (10 # 1) /\
  Js.get four_points_table 2 = Some (20 # 1) /\
  (10 # 1 < endX (travellerPositions four_points_off_table))%Q /\
  (endX (travellerPositions four_points_off_table) < 20 # 1)%Q /\
  ~ would_invert id_endX (20 # 1) (travellerPositions four_points_off_table) /\
  handleTravellerMoveKeyboard four_points four_points_table
    four_points_off_table ArrowRight id_endX = (four_points_off_table, []).
Proof.
  split; [reflexivity |]. split; [reflexivity |].
  split; [reflexivity |]. split; [reflexivity |].
  split; [| reflexivity].
  unfold would_invert, Qle. simpl. lia.
Qed.

Lemma indexOf_absent (arr : list Q) (v : Q) :
  (forall k a, Js.get arr k = Some a -> ~ (a == v)%Q) -> Js.indexOf arr v = -1.
Proof.
  intros Habsent. unfold Js.indexOf.
  destruct (indexOf_from_spec arr v 0) as [[H _] | (k & a & _ & Hnth & Ha & _)];
    [lia | exact H |].
  exfalso. apply (Habsent (Z.of_nat k) a); [| exact Ha].
  apply js_get_nth. split; [lia |]. now rewrite Nat2Z.id.
Qed.

Lemma indexOf_found (arr : list Q) (v a : Q) :
  Js.get arr (Js.indexOf arr v) = Some a -> (a == v)%Q.
Proof.
  unfold Js.indexOf. intros Hget.
  destruct (indexOf_from_spec arr v 0) as [[H _] | (k & b & Hk & Hnth & Hb & _)];
    [lia | |].
  - rewrite H in Hget. discriminate.
  - rewrite Hk in Hget. apply js_get_nth in Hget as [_ Hget].
    replace (Z.to_nat (0 + Z.of_nat k)) with k in Hget by lia.
    rewrite Hnth in Hget. now injection Hget as <-.
Qed.

(** C6 (amended).  With [i] the position of the focused handle's coordinate
    in the table and [j = i + direction]: a press is refused when the
    handle stands on no coordinate of the table, when the target [j] is
    beyond either end of the table, or when the target coordinate would put
    the start handle at or after the end handle (the end handle at or
    before the start handle); a refused press leaves the state as it was
    and calls [onChange] not at all.  Any other press -- from a coordinate
    of the table to a neighbour that keeps the order -- moves the handle to
    the adjacent coordinate [table[j]], leaves the other handle alone and
    calls [onChange] once, within the handler.  On a strictly increasing
    table, ArrowRight on the end handle standing on the last coordinate is
    refused. *)
Theorem keyboard_move_from_coordinate_or_refused {A : Type}
  (p : BrushWithStateProps A) (scaleValues : list Q) (s : BrushState)
  (direction : Direction) (id : BrushTravellerId) :
  let pos := position id (travellerPositions s) in
  let i := Js.indexOf scaleValues pos in
  let j := i + direction_value direction in
  let out := handleTravellerMoveKeyboard p scaleValues s direction id in
  ((forall k a, Js.get scaleValues k = Some a -> ~ (a == pos)%Q) ->
   out = (s, [])) /\
  (j < 0 \/ Js.length scaleValues <= j -> out = (s, [])) /\
  (forall v, Js.get scaleValues j = Some v ->
             would_invert id v (travellerPositions s) -> out = (s, [])) /\
  (forall a v, Js.get scaleValues i = Some a -> Js.get scaleValues j = Some v ->
               ~ would_invert id v (travellerPositions s) ->
               (a == pos)%Q /\
               (exists w, snd out = [w]) /\
               position id (travellerPositions (fst out)) = v /\
               position (other_id id) (travellerPositions (fst out)) =
                 position (other_id id) (travellerPositions s)) /\
  (strictly_increasing scaleValues ->
   forall last,
     Js.get scaleValues (Js.length scaleValues - 1) = Some last ->
     (endX (travellerPositions s) == last)%Q ->
     handleTravellerMoveKeyboard p scaleValues s ArrowRight id_endX = (s, [])).
Proof.
  cbv zeta.
  set (i := Js.indexOf scaleValues (position id (travellerPositions s))).
  pose proof (indexOf_range scaleValues (position id (travellerPositions s)))
    as Hrange. fold i in Hrange.
  assert (Hunfold :
    handleTravellerMoveKeyboard p scaleValues s direction id =
    if i =? -1 then (s, [])
    else if (i + direction_value direction =? -1)
            || (i + direction_value direction >=? Js.length scaleValues)
         then (s, [])
         else match Js.get scaleValues (i + direction_value direction) with
              | None => (s, [])
              | Some v =>
                  if match id with
                     | id_startX => Js.leb (endX (travellerPositions s)) v
                     | id_endX => Js.leb v (startX (travellerPositions s))
                     end
                  then (s, [])
                  else ({| isTravellerMoving := isTravellerMoving s;
                           isSlideMoving := isSlideMoving s;
                           movingTravellerId := movingTravellerId s;
                           brushMoveStartX := brushMoveStartX s;
                           slideMoveStartX := slideMoveStartX s;
                           travellerPositions :=
                             set_position id v (travellerPositions s) |},
                        [getIndex (startX (travellerPositions s))
                                  (endX (travellerPositions s))
                                  scaleValues (p_gap p) (p_data p)])
              end) by reflexivity.
  split; [| split; [| split; [| split]]].
  - intros Habsent. rewrite Hunfold.
    assert (i = -1) as -> by (now apply indexOf_absent). reflexivity.
  - intros Hout. rewrite Hunfold.
    destruct (i =? -1) eqn:Ei; [reflexivity |]. apply Z.eqb_neq in Ei.
    assert ((i + direction_value direction =? -1)
            || (i + direction_value direction >=? Js.length scaleValues) = true)
      as ->; [| reflexivity].
    apply orb_true_iff. destruct direction; simpl in *.
    + right. apply Z.geb_le. lia.
    + destruct Hout as [Hneg | Hbig].
      * left. apply Z.eqb_eq. lia.
      * right. apply Z.geb_le. lia.
  - intros v Hget Hinv. rewrite Hunfold. rewrite Hget.
    apply would_invert_test in Hinv. rewrite Hinv.
    destruct (i =? -1); [reflexivity |].
    destruct (_ || _); reflexivity.
  - intros a v Hgeti Hget Hok.
    split; [now apply (indexOf_found scaleValues) |].
    rewrite Hunfold.
    pose proof (js_get_range _ _ _ Hgeti) as Hi.
    pose proof (js_get_range _ _ _ Hget) as Hj.
    assert ((i =? -1) = false) as -> by (apply Z.eqb_neq; lia).
    assert ((i + direction_value direction =? -1)
            || (i + direction_value direction >=? Js.length scaleValues) = false)
      as ->.
    { apply orb_false_iff. split; [apply Z.eqb_neq; lia |].
      rewrite Z.geb_leb. apply Z.leb_gt. lia. }
    rewrite Hget.
    destruct (match id with
              | id_startX => Js.leb (endX (travellerPositions s)) v
              | id_endX => Js.leb v (startX (travellerPositions s))
              end) eqn:Etest.
    + exfalso. apply Hok. now apply would_invert_test.
    + cbn [fst snd travellerPositions].
      split; [eexists; reflexivity |]. destruct id; split; reflexivity.
  - intros Hinc last Hlast Hend.
    unfold handleTravellerMoveKeyboard. cbv zeta. cbn [position].
    rewrite (indexOf_strictly_increasing scaleValues
               (Js.length scaleValues - 1) last _ Hinc Hlast Hend).
    destruct (Js.length scaleValues - 1 =? -1); [reflexivity |].
    cbn [direction_value].
    assert ((Js.length scaleValues - 1 + 1 >=? Js.length scaleValues) = true)
      as -> by (apply Z.geb_le; lia).
    rewrite orb_true_r. reflexivity.
Qed.

(** With [width > travellerWidth] the table of [createScale] strictly
    increases, so the last coordinate stands only at the last index. *)
Lemma createScale_table_strictly_increasing {A : Type} (d : list A)
  (si ei : Z) (x w tw : Q) :
  d <> [] -> (tw < w)%Q ->
  exists sv,
    cs_scaleValues (createScale (Some d) si ei x w tw) = Some sv /\
    strictly_increasing sv.
Proof.
  intros Hne Hw.
  destruct (createScale_table d si ei x w tw Hne) as (sv & Hcs & Hlen & Hget).
  exists sv. rewrite Hcs. split; [reflexivity |].
  intros i j a b Hij Ha Hb.
  assert (i < List.length sv)%nat as Hi by (apply nth_error_Some; congruence).
  assert (j < List.length sv)%nat as Hj by (apply nth_error_Some; congruence).
  set (n := Js.length d) in *.
  assert (Z.of_nat (List.length sv) = n) as Hn by (unfold n, Js.length; lia).
  assert (forall k c, (k < List.length sv)%nat -> nth_error sv k = Some c ->
            (c == x + inject_Z (Z.of_nat k) * ((w - tw) / inject_Z (n - 1)))%Q)
    as Hval.
  { intros k c Hk Hc.
    destruct (sp_apply_point n (Z.of_nat k) x (x + w - tw)%Q) as (v & Hv & Heq);
      [lia |].
    specialize (Hget (Z.of_nat k)). unfold Js.get in Hget.
    assert ((Z.of_nat k <? 0) = false) as E by (apply Z.ltb_ge; lia).
    rewrite E, Nat2Z.id, Hc in Hget.
    rewrite <- Hget in Hv by lia. injection Hv as ->.
    assert ((n =? 1) = false) as E1 by (apply Z.eqb_neq; lia).
    rewrite E1 in Heq. rewrite Heq.
    pose proof (inject_Z_nonzero (n - 1)) as Hnz. field. apply Hnz. lia. }
  rewrite (Hval i a Hi Ha), (Hval j b Hj Hb).
  assert (0 < (w - tw) / inject_Z (n - 1))%Q as Hstep.
  { apply Qlt_shift_div_l.
    - change 0%Q with (inject_Z 0). rewrite <- Zlt_Qlt. lia.
    - lra. }
  assert (inject_Z (Z.of_nat i) < inject_Z (Z.of_nat j))%Q as Hq
      by (rewrite <- Zlt_Qlt; lia).
  apply Qplus_lt_r. apply Qmult_lt_compat_r; assumption.
Qed.

(** The coordinate [createScale] gives a valid index lies on the track when
    the track is not shorter than a traveller. *)
Lemma createScale_coordinate_on_track {A : Type} (p : BrushWithStateProps A) (i : Z) :
  p_data p <> [] -> (p_travellerWidth p <= p_width p)%Q ->
  0 <= i < Js.length (p_data p) ->
  exists v,
    cs_startX (createScale (Some (p_data p)) i i (p_x p) (p_width p)
                           (p_travellerWidth p)) = Some v /\
    on_track p v.
Proof.
  intros Hne Hw Hi.
  destruct (createScale_table (p_data p) i i (p_x p) (p_width p)
              (p_travellerWidth p) Hne) as (sv & Hcs & _ & _).
  rewrite Hcs. cbn [cs_startX].
  set (n := Js.length (p_data p)) in *.
  destruct (sp_apply_point n i (p_x p) (p_x p + p_width p - p_travellerWidth p)%Q Hi)
    as (v & Hv & Heq).
  exists v. split; [exact Hv |]. unfold on_track.
  destruct (n =? 1) eqn:E1.
  - rewrite Heq. lra.
  - apply Z.eqb_neq in E1.
    set (step := ((p_x p + p_width p - p_travellerWidth p - p_x p)
                  / inject_Z (n - 1))%Q) in *.
    assert (0 < inject_Z (n - 1))%Q as Hpos.
    { change 0%Q with (inject_Z 0). rewrite <- Zlt_Qlt. lia. }
    assert (inject_Z (n - 1) * step == p_width p - p_travellerWidth p)%Q as Hfull.
    { unfold step. field. lra. }
    assert (0 <= step)%Q as Hstep.
    { unfold step. apply Qle_shift_div_l; [exact Hpos | lra]. }
    assert (0 <= inject_Z i)%Q as Hi0.
    { change 0%Q with (inject_Z 0). rewrite <- Zle_Qle. lia. }
    assert (inject_Z i <= inject_Z (n - 1))%Q as Hi1
        by (rewrite <- Zle_Qle; lia).
    assert (0 <= inject_Z i * step)%Q as Hlo by (apply Qmult_le_0_compat; assumption).
    assert (inject_Z i * step <= inject_Z (n - 1) * step)%Q as Hhi
        by (apply Qmult_le_compat_r; assumption).
    rewrite Heq. lra.
Qed.

(** ** The claims at concrete inputs *)

Lemma getIndex_snaps_to_gap_witness :
  let r := getIndex (990 # 1) (300 # 1) six_points_table 2 [tt; tt; tt; tt; tt; tt] in
  (2 | startIndex r) /\ ((2 | endIndex r) \/ endIndex r = 5).
Proof.
  destruct (getIndex_snaps_to_gap [tt; tt; tt; tt; tt; tt] 2 six_points_table
              (990 # 1) (300 # 1)) as (_ & _ & _ & H).
  - discriminate.
  - lia.
  - apply H. lia.
Defined.

Lemma getIndexInRange_returns_bracket_end_or_start_witness :
  exists s e v,
    while_loop 6 six_points_table (500 # 1) (0, 5) = Some (s, e) /\
    Js.get six_points_table e = Some v /\
    ((500 # 1 < v)%Q -> getIndexInRange six_points_table (500 # 1) = s).
Proof.
  destruct (getIndexInRange_returns_bracket_end_or_start six_points_table (500 # 1))
    as [(s & e & v & Hloop & _ & _ & _ & Hget & _ & Hlt) _].
  - discriminate.
  - exists s, e, v. split; [exact Hloop |]. split; [exact Hget | exact Hlt].
Defined.

Lemma getIndexInRange_monotonic_witness :
  getIndexInRange six_points_table (300 # 1)
  <= getIndexInRange six_points_table (990 # 1).
Proof.
  apply (getIndexInRange_monotonic six_points_table (300 # 1) (990 # 1)).
  reflexivity.
Defined.

Lemma getIndexInRange_terminates_witness :
  exists b, while_loop 3 [5 # 1; 5 # 1; 1 # 1] (5 # 1) (0, 2) = Some b /\
            loop_cond b = false.
Proof.
  destruct (getIndexInRange_terminates [5 # 1; 5 # 1; 1 # 1] (5 # 1))
    as [_ (b & Hrun & Hcond & _)].
  - discriminate.
  - exists b. split; [exact Hrun | exact Hcond].
Defined.

Lemma six_points_table_non_decreasing : non_decreasing six_points_table.
Proof.
  intros i j a b Hij Ha Hb.
  assert (j < List.length six_points_table)%nat as Hj
      by (apply nth_error_Some; congruence).
  simpl in Hj.
  destruct j as [| [| [| [| [| [| j]]]]]]; try lia;
    destruct i as [| [| [| [| [| [| i]]]]]]; try lia;
    simpl in Ha, Hb; injection Ha as <-; injection Hb as <-;
    unfold Qle; simpl; lia.
Qed.

Lemma getIndex_window_ordered_in_bounds_witness :
  let r := getIndex (990 # 1) (300 # 1) six_points_table 2 [tt; tt; tt; tt; tt; tt] in
  0 <= startIndex r /\ startIndex r <= endIndex r /\ endIndex r <= 5.
Proof.
  destruct (getIndex_window_ordered_in_bounds [tt; tt; tt; tt; tt; tt] 2
              six_points_table (990 # 1) (300 # 1)) as [H _].
  - discriminate.
  - lia.
  - exact six_points_table_non_decreasing.
  - reflexivity.
  - exact H.
Defined.

Lemma createScale_empty_iff_no_data_witness :
  exists sc sv,
    cs_scale (createScale (Some [tt; tt]) 0 1 0 (5 # 1) (5 # 1)) = Some sc /\
    cs_scaleValues (createScale (Some [tt; tt]) 0 1 0 (5 # 1) (5 # 1)) = Some sv /\
    List.length sv = 2%nat.
Proof.
  destruct (createScale_empty_iff_no_data (Some [tt; tt]) 0 1 0 (5 # 1) (5 # 1))
    as [_ H].
  apply (H [tt; tt]); [reflexivity | discriminate].
Defined.

Lemma four_points_idle_on_track :
  on_track four_points (startX (travellerPositions four_points_idle)) /\
  on_track four_points (endX (travellerPositions four_points_idle)).
Proof. unfold on_track. cbn. repeat split; discriminate. Qed.

Lemma pixel_value_30 : pixel_value (30 # 1).
Proof. exists 30. split; [reflexivity | vm_compute; discriminate]. Qed.

Lemma pixel_value_10 : pixel_value (10 # 1).
Proof. exists 10. split; [reflexivity | vm_compute; discriminate]. Qed.

Lemma pixel_value_0 : pixel_value 0.
Proof. exists 0. split; [reflexivity | vm_compute; discriminate]. Qed.

Lemma four_points_exact : exact_geometry four_points.
Proof.
  split; [exact pixel_value_0 |]. split.
  - exists 35. split; [reflexivity | vm_compute; discriminate].
  - exists 5. split; [reflexivity | vm_compute; discriminate].
Qed.

Lemma four_points_idle_whole_on_track :
  whole_on_track four_points (startX (travellerPositions four_points_idle)) /\
  whole_on_track four_points (endX (travellerPositions four_points_idle)).
Proof.
  split; (split; [| apply four_points_idle_on_track]).
  - exists 0. reflexivity.
  - exists 30. reflexivity.
Qed.

Lemma traveller_drag_rendered_moves_stay_on_track_witness :
  exists s',
    drag_moves four_points four_points_table
      (handleTravellerDragStart id_endX (30 # 1) four_points_idle)
      (handleTravellerDragStart id_endX (30 # 1) four_points_idle)
      [Move (10 # 1); Rerender; Move 0; Rerender; Move (30 # 1)] = Some s' /\
    on_track four_points (endX (travellerPositions s')).
Proof.
  destruct (traveller_drag_rendered_moves_stay_on_track four_points
              four_points_table four_points_idle id_endX (30 # 1)
              [Move (10 # 1); Rerender; Move 0; Rerender; Move (30 # 1)])
    as [_ (s' & Hrun & Hon & _)].
  - exact four_points_exact.
  - apply four_points_idle_whole_on_track.
  - apply four_points_idle_whole_on_track.
  - exact pixel_value_30.
  - repeat constructor; simpl;
      first [exact pixel_value_10 | exact pixel_value_0 | exact pixel_value_30].
  - reflexivity.
  - exists s'. split; [exact Hrun | exact Hon].
Defined.

Lemma four_points_table_strictly_increasing : strictly_increasing four_points_table.
Proof.
  intros i j a b Hij Ha Hb.
  assert (j < List.length four_points_table)%nat as Hj
      by (apply nth_error_Some; congruence).
  simpl in Hj.
  destruct j as [| [| [| [| j]]]]; try lia;
    destruct i as [| [| [| [| i]]]]; try lia;
    simpl in Ha, Hb; injection Ha as <-; injection Hb as <-;
    unfold Qlt; simpl; lia.
Qed.

Lemma keyboard_move_from_coordinate_or_refused_witness :
  handleTravellerMoveKeyboard four_points four_points_table four_points_idle
    ArrowRight id_endX = (four_points_idle, []).
Proof.
  destruct (keyboard_move_from_coordinate_or_refused four_points
              four_points_table four_points_idle ArrowRight id_endX)
    as (_ & _ & _ & _ & H).
  apply (H four_points_table_strictly_increasing (30 # 1)); reflexivity.
Defined.

(** ** The search on sorted tables *)

Lemma js_gt_true (a : option Q) (x : Q) :
  Js.gt a x = true <-> exists v, a = Some v /\ (x < v)%Q.
Proof.
  destruct a as [v |]; simpl.
  - rewrite negb_true_iff. split.
    + intros H. exists v. split; [reflexivity |].
      apply Qnot_le_lt. intros Hle. apply Qle_bool_iff in Hle. congruence.
    + intros (v' & Hv & Hlt). injection Hv as <-.
      destruct (Qle_bool v x) eqn:E; [| reflexivity].
      apply Qle_bool_iff in E. lra.
  - split; [discriminate | intros (v & H & _); discriminate].
Qed.

Lemma js_ge_true (x : Q) (a : option Q) :
  Js.ge x a = true <-> exists v, a = Some v /\ (v <= x)%Q.
Proof.
  destruct a as [v |]; simpl.
  - rewrite Qle_bool_iff. split.
    + intros H. now exists v.
    + intros (v' & Hv & Hle). now injection Hv as <-.
  - split; [discriminate | intros (v & H & _); discriminate].
Qed.

Lemma search_keeps_inv (vr : list Q) (x : Q) (n : nat) :
  forall s e, 0 <= s -> s <= e -> e <= Js.length vr - 1 -> e - s <= Z.of_nat n ->
    bracket_inv vr x s e ->
    bracket_inv vr x (fst (search vr x s e)) (snd (search vr x s e)).
Proof.
  induction n as [| n IH]; intros s e H0 Hse He Hn Hinv; rewrite search_loop.
  - assert (loop_cond (s, e) = false) as -> by (apply loop_cond_false; lia).
    exact Hinv.
  - destruct (loop_cond (s, e)) eqn:Hc; [| exact Hinv].
    apply loop_cond_true in Hc.
    pose proof (floor_half_between s e Hc) as Hm.
    cbv zeta. unfold loop_body.
    set (m := Js.floor_half s e) in *.
    destruct (js_get_defined vr m) as [v Hv]; [lia |].
    destruct Hinv as [Hl Hr].
    destruct (Js.gt (Js.get vr m) x) eqn:G; cbn [fst snd].
    + apply IH; try lia. split; [exact Hl |]. right.
      apply js_gt_true in G. exact G.
    + apply IH; try lia. split; [| exact Hr]. right.
      exists v. split; [exact Hv |]. rewrite Hv in G. simpl in G.
      apply negb_false_iff in G. now apply Qle_bool_iff.
Qed.

Lemma non_decreasing_get (vr : list Q) (i j : Z) (a b : Q) :
  non_decreasing vr -> i <= j ->
  Js.get vr i = Some a -> Js.get vr j = Some b -> (a <= b)%Q.
Proof.
  intros Hnd Hij Ha Hb.
  apply js_get_nth in Ha as [Hi Ha]. apply js_get_nth in Hb as [Hj Hb].
  apply (Hnd (Z.to_nat i) (Z.to_nat j)); auto. lia.
Qed.

(** On a non-empty table whose coordinates never decrease, the index
    [getIndexInRange] returns has every later coordinate above [x], and
    its own coordinate is at most [x] -- unless [x] is below the whole
    table, when the index is 0. *)
Lemma search_sorted_spec (valueRange : list Q) (x : Q) :
  valueRange <> [] -> non_decreasing valueRange ->
  let r := getIndexInRange valueRange x in
  (forall j v, r < j -> Js.get valueRange j = Some v -> (x < v)%Q) /\
  ((exists v, Js.get valueRange r = Some v /\ (v <= x)%Q) \/
   (r = 0 /\ forall j v, Js.get valueRange j = Some v -> (x < v)%Q)).
Proof.
  intros Hne Hnd. cbv zeta.
  assert (1 <= Js.length valueRange) as Hlen.
  { unfold Js.length. destruct valueRange; [congruence | simpl; lia]. }
  unfold getIndexInRange. cbv zeta.
  set (last := Js.length valueRange - 1) in *.
  pose proof (search_bracket valueRange x (Z.to_nat last) 0 last) as Hb.
  cbv zeta in Hb.
  pose proof (search_keeps_inv valueRange x (Z.to_nat last) 0 last) as Hinv.
  destruct (search valueRange x 0 last) as [s e]. cbn [fst snd] in *.
  assert (0 <= s /\ s <= e /\ e <= last /\ e - s <= 1) as (Hs0 & Hse & He & Hw)
      by lia.
  destruct Hinv as [Hl Hr]; try lia.
  { split; [now left | now left]. }
  clear Hb.
  destruct (js_get_defined valueRange e) as [ve Hve]; [lia |].
  destruct (js_get_defined valueRange s) as [vs Hvs]; [lia |].
  unfold pick. cbn [fst snd]. rewrite Hve. simpl.
  destruct (Qle_bool ve x) eqn:Ge.
  - apply Qle_bool_iff in Ge.
    assert (e = last) as ->.
    { destruct Hr as [-> | (v & Hv & Hlt)]; [reflexivity |].
      rewrite Hve in Hv. injection Hv as <-. lra. }
    split.
    + intros j v Hj Hget. apply js_get_range in Hget. lia.
    + left. now exists ve.
  - assert (x < ve)%Q as Hlt.
    { apply Qnot_le_lt. intros H. apply Qle_bool_iff in H. congruence. }
    assert (forall j v, e <= j -> Js.get valueRange j = Some v -> (x < v)%Q)
      as Habove.
    { intros j v Hj Hget.
      pose proof (non_decreasing_get valueRange e j ve v Hnd Hj Hve Hget). lra. }
    split.
    + intros j v Hj Hget. apply (Habove j v); [lia | exact Hget].
    + destruct (Qlt_le_dec x vs) as [Hxs | Hxs].
      * destruct Hl as [-> | (v & Hv & Hle)].
        -- right. split; [reflexivity |]. intros j v Hget.
           pose proof (js_get_range _ _ _ Hget) as Hj.
           assert (0 <= j) as Hj0 by lia.
           pose proof (non_decreasing_get valueRange 0 j vs v Hnd Hj0 Hvs Hget).
           lra.
        -- rewrite Hvs in Hv. injection Hv as <-. lra.
      * left. now exists vs.
Qed.

Lemma strictly_increasing_non_decreasing (vr : list Q) :
  strictly_increasing vr -> non_decreasing vr.
Proof.
  intros Hinc i j a b Hij Ha Hb.
  destruct (Nat.eq_dec i j) as [-> | Hne].
  - rewrite Ha in Hb. injection Hb as <-. apply Qle_refl.
  - apply Qlt_le_weak. apply (Hinc i j); auto. lia.
Qed.

Lemma strictly_increasing_get (vr : list Q) (i j : Z) (a b : Q) :
  strictly_increasing vr -> i < j ->
  Js.get vr i = Some a -> Js.get vr j = Some b -> (a < b)%Q.
Proof.
  intros Hinc Hij Ha Hb.
  apply js_get_nth in Ha as [Hi Ha]. apply js_get_nth in Hb as [Hj Hb].
  apply (Hinc (Z.to_nat i) (Z.to_nat j)); auto. lia.
Qed.

(** Locating a coordinate of a strictly increasing table gives back the
    index the coordinate stands at. *)
Lemma locate_coordinate (valueRange : list Q) (i : Z) (v x : Q) :
  strictly_increasing valueRange ->
  Js.get valueRange i = Some v -> (x == v)%Q ->
  getIndexInRange valueRange x = i.
Proof.
  intros Hinc Hget Hx.
  assert (valueRange <> []) as Hne.
  { intros ->. apply js_get_range in Hget. unfold Js.length in Hget.
    simpl in Hget. lia. }
  pose proof (search_sorted_spec valueRange x Hne
                (strictly_increasing_non_decreasing _ Hinc)) as [Habove Hat].
  cbv zeta in *. set (r := getIndexInRange valueRange x) in *.
  destruct (Z.lt_trichotomy r i) as [Hlt | [Heq | Hgt]]; [| exact Heq |].
  - specialize (Habove i v Hlt Hget). lra.
  - destruct Hat as [(vr & Hvr & Hle) | [_ Hall]].
    + pose proof (strictly_increasing_get valueRange i r v vr Hinc Hgt Hget Hvr).
      lra.
    + specialize (Hall i v Hget). lra.
Qed.

(** A coordinate between two neighbours of a table that never decreases is
    located at the left neighbour; past the last entry, at the last index. *)
Lemma locate_cell (valueRange : list Q) (i : Z) (v x : Q) :
  non_decreasing valueRange ->
  Js.get valueRange i = Some v -> (v <= x)%Q ->
  (forall v', Js.get valueRange (i + 1) = Some v' -> (x < v')%Q) ->
  getIndexInRange valueRange x = i.
Proof.
  intros Hnd Hget Hle Hnext.
  assert (valueRange <> []) as Hne.
  { intros ->. apply js_get_range in Hget. unfold Js.length in Hget.
    simpl in Hget. lia. }
  pose proof (js_get_range _ _ _ Hget) as Hi.
  pose proof (search_sorted_spec valueRange x Hne Hnd) as [Habove Hat].
  pose proof (getIndexInRange_bounds valueRange x Hne) as Hr.
  cbv zeta in *. set (r := getIndexInRange valueRange x) in *.
  destruct (Z.lt_trichotomy r i) as [Hlt | [Heq | Hgt]]; [| exact Heq |].
  - specialize (Habove i v Hlt Hget). lra.
  - exfalso.
    destruct (js_get_defined valueRange (i + 1)) as [v' Hv']; [lia |].
    specialize (Hnext v' Hv').
    destruct Hat as [(vr & Hvr & Hler) | [H0 _]]; [| lia].
    assert (i + 1 <= r) as Hir by lia.
    pose proof (non_decreasing_get valueRange (i + 1) r v' vr Hnd Hir Hv' Hvr).
    lra.
Qed.

(** On a non-empty table whose coordinates never decrease,
    [getIndexInRange] returns the greatest index whose coordinate is at
    most [x]: no index with such a coordinate lies after it, and its own
    coordinate is at most [x] unless [x] is below the whole table, when it
    is index 0. *)
Theorem getIndexInRange_sorted_greatest_at_most (valueRange : list Q) (x : Q) :
  valueRange <> [] -> non_decreasing valueRange ->
  let r := getIndexInRange valueRange x in
  (forall j v, Js.get valueRange j = Some v -> (v <= x)%Q -> j <= r) /\
  ((exists v, Js.get valueRange r = Some v /\ (v <= x)%Q) \/
   (r = 0 /\ forall j v, Js.get valueRange j = Some v -> (x < v)%Q)).
Proof.
  intros Hne Hnd r.
  destruct (search_sorted_spec valueRange x Hne Hnd) as [Habove Hat].
  fold r in Habove, Hat. split; [| exact Hat].
  intros j v Hget Hle. destruct (Z_le_gt_dec j r) as [H | H]; [exact H |].
  assert (r < j) as Hlt by lia.
  specialize (Habove j v Hlt Hget). lra.
Qed.

(** On a table that never decreases, every coordinate from [table[i]] up to,
    but not including, [table[i + 1]] is located at [i], and every
    coordinate from the last entry on at the last index.  On a strictly
    increasing table this makes locating [table[i]] give back [i]. *)
Theorem getIndexInRange_locates_cell (valueRange : list Q) (i : Z) (v : Q) :
  non_decreasing valueRange -> Js.get valueRange i = Some v ->
  (forall x v', Js.get valueRange (i + 1) = Some v' ->
                (v <= x)%Q -> (x < v')%Q -> getIndexInRange valueRange x = i) /\
  (forall x, i = Js.length valueRange - 1 -> (v <= x)%Q ->
             getIndexInRange valueRange x = i) /\
  (strictly_increasing valueRange ->
   forall x, (x == v)%Q -> getIndexInRange valueRange x = i).
Proof.
  intros Hnd Hget. split; [| split].
  - intros x v' Hnext Hle Hlt. apply (locate_cell valueRange i v x Hnd Hget Hle).
    intros v'' Hv''. rewrite Hnext in Hv''. now injection Hv'' as <-.
  - intros x Hlast Hle. apply (locate_cell valueRange i v x Hnd Hget Hle).
    intros v' Hv'. apply js_get_range in Hv'. lia.
  - intros Hinc x Hx. exact (locate_coordinate valueRange i v x Hinc Hget Hx).
Qed.

Lemma search_start_stays (vr : list Q) (x : Q) (n : nat) :
  (forall j v, Js.get vr j = Some v -> (x < v)%Q) ->
  forall s e, 0 <= s -> s <= e -> e <= Js.length vr - 1 -> e - s <= Z.of_nat n ->
    fst (search vr x s e) = s.
Proof.
  intros Hall. induction n as [| n IH]; intros s e H0 Hse He Hn;
    rewrite search_loop.
  - assert (loop_cond (s, e) = false) as -> by (apply loop_cond_false; lia).
    reflexivity.
  - destruct (loop_cond (s, e)) eqn:Hc; [| reflexivity].
    apply loop_cond_true in Hc.
    pose proof (floor_half_between s e Hc) as Hm.
    cbv zeta. unfold loop_body. set (m := Js.floor_half s e) in *.
    destruct (js_get_defined vr m) as [v Hv]; [lia |].
    assert (Js.gt (Js.get vr m) x = true) as ->.
    { apply js_gt_true. exists v. split; [exact Hv | now apply (Hall m)]. }
    cbn [fst snd]. apply IH; lia.
Qed.

Lemma search_end_stays (vr : list Q) (x : Q) (n : nat) :
  (forall j v, Js.get vr j = Some v -> (v <= x)%Q) ->
  forall s e, 0 <= s -> s <= e -> e <= Js.length vr - 1 -> e - s <= Z.of_nat n ->
    snd (search vr x s e) = e.
Proof.
  intros Hall. induction n as [| n IH]; intros s e H0 Hse He Hn;
    rewrite search_loop.
  - assert (loop_cond (s, e) = false) as -> by (apply loop_cond_false; lia).
    reflexivity.
  - destruct (loop_cond (s, e)) eqn:Hc; [| reflexivity].
    apply loop_cond_true in Hc.
    pose proof (floor_half_between s e Hc) as Hm.
    cbv zeta. unfold loop_body. set (m := Js.floor_half s e) in *.
    destruct (js_get_defined vr m) as [v Hv]; [lia |].
    assert (Js.gt (Js.get vr m) x = false) as ->.
    { destruct (Js.gt (Js.get vr m) x) eqn:G; [| reflexivity].
      apply js_gt_true in G as (v' & Hv' & Hlt).
      pose proof (Hall m v' Hv'). lra. }
    cbn [fst snd]. apply IH; lia.
Qed.

(** On any non-empty table, sorted or not: a coordinate below every entry
    is located at index 0, a coordinate at or above every entry at the last
    index. *)
Theorem getIndexInRange_outside_table (valueRange : list Q) (x : Q) :
  valueRange <> [] ->
  ((forall j v, Js.get valueRange j = Some v -> (x < v)%Q) ->
   getIndexInRange valueRange x = 0) /\
  ((forall j v, Js.get valueRange j = Some v -> (v <= x)%Q) ->
   getIndexInRange valueRange x = Js.length valueRange - 1).
Proof.
  intros Hne.
  assert (1 <= Js.length valueRange) as Hlen.
  { unfold Js.length. destruct valueRange; [congruence | simpl; lia]. }
  set (last := Js.length valueRange - 1) in *.
  pose proof (search_bracket valueRange x (Z.to_nat last) 0 last) as Hb.
  cbv zeta in Hb.
  split; intros Hall; unfold getIndexInRange; cbv zeta; fold last.
  - pose proof (search_start_stays valueRange x (Z.to_nat last) Hall 0 last) as Hs.
    unfold pick.
    destruct (js_get_defined valueRange (snd (search valueRange x 0 last)))
      as [v Hv]; [lia |].
    assert (Js.ge x (Js.get valueRange (snd (search valueRange x 0 last))) = false)
      as ->.
    { destruct (Js.ge x _) eqn:G; [| reflexivity].
      apply js_ge_true in G as (v' & Hv' & Hle).
      pose proof (Hall _ _ Hv'). lra. }
    apply Hs; lia.
  - pose proof (search_end_stays valueRange x (Z.to_nat last) Hall 0 last) as He.
    unfold pick.
    destruct (js_get_defined valueRange (snd (search valueRange x 0 last)))
      as [v Hv]; [lia |].
    assert (Js.ge x (Js.get valueRange (snd (search valueRange x 0 last))) = true)
      as ->.
    { apply js_ge_true. exists v. split; [exact Hv | now apply (Hall _ _ Hv)]. }
    apply He; lia.
Qed.

(** ** The number of passes of the search loop *)

Lemma loop_body_halves (vr : list Q) (x : Q) (s e k : Z) :
  0 <= k -> 1 < e - s -> e - s <= 2 * k ->
  let b := loop_body vr x (s, e) in snd b - fst b <= k.
Proof.
  intros Hk Hw Hle. unfold loop_body, Js.floor_half.
  destruct (Js.gt _ x); cbn [fst snd]; Z.div_mod_to_equations; lia.
Qed.

Lemma while_loop_halving (vr : list Q) (x : Q) (fuel : nat) :
  forall s e, e - s <= 2 ^ Z.of_nat fuel ->
    while_loop fuel vr x (s, e) = Some (search vr x s e).
Proof.
  induction fuel as [| fuel IH]; intros s e Hle; cbn [while_loop];
    rewrite search_loop.
  - assert (loop_cond (s, e) = false) as ->; [| reflexivity].
    apply loop_cond_false. change (2 ^ Z.of_nat 0) with 1 in Hle. exact Hle.
  - destruct (loop_cond (s, e)) eqn:Hc; [| reflexivity].
    apply loop_cond_true in Hc.
    rewrite Nat2Z.inj_succ, Z.pow_succ_r in Hle by lia.
    pose proof (loop_body_halves vr x s e (2 ^ Z.of_nat fuel)) as Hh.
    cbv zeta in *.
    destruct (loop_body vr x (s, e)) as [s' e']. cbn [fst snd] in *.
    apply IH. apply Hh; lia.
Qed.

(** The loop halves the bracket: on a table of [length] entries it is over
    after [fuel] passes as soon as [length - 1 <= 2 ^ fuel], so after about
    [log2 length] passes. *)
Theorem getIndexInRange_logarithmic_passes (valueRange : list Q) (x : Q) (fuel : nat) :
  Js.length valueRange - 1 <= 2 ^ Z.of_nat fuel ->
  exists b,
    while_loop fuel valueRange x (0, Js.length valueRange - 1) = Some b /\
    loop_cond b = false /\
    getIndexInRange valueRange x = pick valueRange x b.
Proof.
  intros Hfuel.
  exists (search valueRange x 0 (Js.length valueRange - 1)).
  split; [apply while_loop_halving; lia |]. split; [| reflexivity].
  destruct (Z_le_gt_dec 0 (Js.length valueRange - 1)) as [Hpos | Hneg].
  - pose proof (search_bracket valueRange x
                  (Z.to_nat (Js.length valueRange - 1))
                  0 (Js.length valueRange - 1)) as Hb. cbv zeta in Hb.
    destruct (search valueRange x 0 (Js.length valueRange - 1)) as [s e].
    apply loop_cond_false. cbn [fst snd] in Hb. lia.
  - rewrite search_loop.
    assert (loop_cond (0, Js.length valueRange - 1) = false) as Hc
        by (apply loop_cond_false; lia).
    rewrite Hc. exact Hc.
Qed.

(** ** getIndex: order of the arguments, and the way back from indices *)

Lemma getIndexInRange_Qeq (vr : list Q) (x y : Q) :
  (x == y)%Q -> getIndexInRange vr x = getIndexInRange vr y.
Proof.
  intros Hxy.
  assert (x <= y)%Q as H1 by lra. assert (y <= x)%Q as H2 by lra.
  pose proof (getIndexInRange_mono_le vr x y H1).
  pose proof (getIndexInRange_mono_le vr y x H2). lia.
Qed.

(** [getIndex] does not care which of the two positions comes first. *)
Theorem getIndex_symmetric {A : Type} (data : list A) (gap : Z)
  (scaleValues : list Q) (a b : Q) :
  getIndex a b scaleValues gap data = getIndex b a scaleValues gap data.
Proof.
  unfold getIndex. cbv zeta.
  rewrite (getIndexInRange_Qeq scaleValues (Qmin a b) (Qmin b a) (Q.min_comm a b)).
  rewrite (getIndexInRange_Qeq scaleValues (Qmax a b) (Qmax b a) (Q.max_comm a b)).
  reflexivity.
Qed.

Lemma createScale_fields {A : Type} (d : list A) (si ei : Z) (x w tw : Q) :
  d <> [] ->
  let sc := mkScale (range 0 (Js.length d)) (x, (x + w - tw)%Q) in
  cs_scale (createScale (Some d) si ei x w tw) = Some sc /\
  cs_startX (createScale (Some d) si ei x w tw) = sp_apply sc si /\
  cs_endX (createScale (Some d) si ei x w tw) = sp_apply sc ei.
Proof.
  intros Hne sc.
  destruct (createScale_table d si ei x w tw Hne) as (sv & Hcs & _).
  fold sc in Hcs. rewrite Hcs. auto.
Qed.

Lemma sp_apply_outside (n i : Z) (r : Q * Q) :
  0 <= n -> ~ (0 <= i < n) -> sp_apply (mkScale (range 0 n) r) i = None.
Proof.
  intros Hn Hi. unfold sp_apply. cbn [sp_domain].
  rewrite domain_index_range by lia.
  assert ((0 <=? i) && (i <? n) = false) as ->; [| reflexivity].
  apply andb_false_iff.
  destruct (Z_lt_dec i 0); [left; apply Z.leb_gt; lia | right; apply Z.ltb_ge; lia].
Qed.

(** For non-empty data, the [startX] ([endX]) [createScale] returns is a
    number exactly when [startIndex] ([endIndex]) is an index of the data;
    for any other index it is [undefined]. *)
Theorem createScale_position_defined_iff_index_valid {A : Type} (data : list A)
  (si ei : Z) (x width travellerWidth : Q) :
  data <> [] ->
  let r := createScale (Some data) si ei x width travellerWidth in
  (cs_startX r <> None <-> 0 <= si < Js.length data) /\
  (cs_endX r <> None <-> 0 <= ei < Js.length data).
Proof.
  intros Hne r.
  destruct (createScale_fields data si ei x width travellerWidth Hne)
    as (_ & Hs & He). cbv zeta in Hs, He. fold r in Hs, He.
  assert (0 <= Js.length data) as Hn by (unfold Js.length; lia).
  assert (forall i,
            sp_apply (mkScale (range 0 (Js.length data))
                        (x, (x + width - travellerWidth)%Q)) i <> None
            <-> 0 <= i < Js.length data) as Hiff.
  { intros i. split.
    - intros Hdef. destruct (Z_le_dec 0 i); destruct (Z_lt_dec i (Js.length data));
        try lia; exfalso; apply Hdef; apply sp_apply_outside; lia.
    - intros Hi.
      destruct (sp_apply_point (Js.length data) i x
                  (x + width - travellerWidth)%Q Hi) as (v & Hv & _).
      congruence. }
  rewrite Hs, He. split; apply Hiff.
Qed.

(** With [width > travellerWidth] the table of [createScale] is ready for
    the search and for the drag: it has one coordinate per data index, it
    strictly increases, and every coordinate is on the track. *)
Theorem createScale_table_sorted_on_track {A : Type} (p : BrushWithStateProps A) :
  p_data p <> [] -> (p_travellerWidth p < p_width p)%Q ->
  exists sv,
    cs_scaleValues (createScale (Some (p_data p)) (p_startIndex p) (p_endIndex p)
                      (p_x p) (p_width p) (p_travellerWidth p)) = Some sv /\
    List.length sv = List.length (p_data p) /\
    strictly_increasing sv /\
    table_on_track p sv.
Proof.
  intros Hne Hw.
  destruct (createScale_table_strictly_increasing (p_data p) (p_startIndex p)
              (p_endIndex p) (p_x p) (p_width p) (p_travellerWidth p) Hne Hw)
    as (sv & Hsv & Hinc).
  destruct (createScale_table (p_data p) (p_startIndex p) (p_endIndex p)
              (p_x p) (p_width p) (p_travellerWidth p) Hne)
    as (sv' & Hcs & Hlen & Hget).
  rewrite Hcs in Hsv. cbn [cs_scaleValues] in Hsv. injection Hsv as ->.
  exists sv. rewrite Hcs. cbn [cs_scaleValues].
  split; [reflexivity |]. split; [exact Hlen |]. split; [exact Hinc |].
  intros v Hv. apply In_nth_error in Hv as [k Hk].
  assert (k < List.length sv)%nat as Hklen by (apply nth_error_Some; congruence).
  assert (0 <= Z.of_nat k < Js.length (p_data p)) as Hi
      by (unfold Js.length; lia).
  destruct (createScale_coordinate_on_track p (Z.of_nat k) Hne) as (c & Hc & Hon);
    [lra | exact Hi |].
  destruct (createScale_fields (p_data p) (Z.of_nat k) (Z.of_nat k) (p_x p)
              (p_width p) (p_travellerWidth p) Hne) as (_ & Hs & _).
  cbv zeta in Hs. rewrite Hs in Hc.
  specialize (Hget (Z.of_nat k) Hi). rewrite <- Hget in Hc.
  apply js_get_nth in Hc as [_ Hc]. rewrite Nat2Z.id in Hc.
  rewrite Hk in Hc. injection Hc as ->. exact Hon.
Qed.

Lemma locate_min_max (sv : list Q) (i j : Z) (a b : Q) :
  strictly_increasing sv ->
  Js.get sv i = Some a -> Js.get sv j = Some b ->
  getIndexInRange sv (Qmin a b) = Z.min i j /\
  getIndexInRange sv (Qmax a b) = Z.max i j.
Proof.
  intros Hinc Ha Hb.
  destruct (Z.lt_trichotomy i j) as [Hlt | [Heq | Hgt]].
  - pose proof (strictly_increasing_get sv i j a b Hinc Hlt Ha Hb) as Hab.
    rewrite Z.min_l, Z.max_r by lia. split.
    + apply (locate_coordinate sv i a _ Hinc Ha). apply Q.min_l. lra.
    + apply (locate_coordinate sv j b _ Hinc Hb). apply Q.max_r. lra.
  - subst j. rewrite Ha in Hb. injection Hb as <-.
    rewrite Z.min_id, Z.max_id. split.
    + apply (locate_coordinate sv i a _ Hinc Ha). apply Q.min_l. lra.
    + apply (locate_coordinate sv i a _ Hinc Ha). apply Q.max_l. lra.
  - pose proof (strictly_increasing_get sv j i b a Hinc Hgt Hb Ha) as Hab.
    rewrite Z.min_r, Z.max_l by lia. split.
    + apply (locate_coordinate sv j b _ Hinc Hb). apply Q.min_r. lra.
    + apply (locate_coordinate sv i a _ Hinc Ha). apply Q.max_l. lra.
Qed.

(** The positions a brush starts with, and the window they stand for.  For
    non-empty data, [width > travellerWidth], [gap >= 1] and valid
    [startIndex] and [endIndex]: both positions exist and are on the track,
    they are in the order of the indices, and [getIndex] maps them back to
    the smaller and the larger index, snapped to [gap] (the larger one kept
    when it is the last index).  With [gap = 1] and [startIndex <=
    endIndex] that is the window of the props itself. *)
Theorem initial_positions_give_back_indices {A : Type} (p : BrushWithStateProps A) :
  p_data p <> [] -> (p_travellerWidth p < p_width p)%Q -> 1 <= p_gap p ->
  0 <= p_startIndex p < Js.length (p_data p) ->
  0 <= p_endIndex p < Js.length (p_data p) ->
  exists sv tp,
    cs_scaleValues (createScale (Some (p_data p)) (p_startIndex p) (p_endIndex p)
                      (p_x p) (p_width p) (p_travellerWidth p)) = Some sv /\
    initial_positions p = Some tp /\
    on_track p (startX tp) /\ on_track p (endX tp) /\
    (p_startIndex p <= p_endIndex p -> (startX tp <= endX tp)%Q) /\
    (let m := Z.min (p_startIndex p) (p_endIndex p) in
     let M := Z.max (p_startIndex p) (p_endIndex p) in
     getIndex (startX tp) (endX tp) sv (p_gap p) (p_data p) =
     {| startIndex := m - m mod p_gap p;
        endIndex := if M =? Js.length (p_data p) - 1 then M
                    else M - M mod p_gap p |}) /\
    (p_gap p = 1 -> p_startIndex p <= p_endIndex p ->
     getIndex (startX tp) (endX tp) sv (p_gap p) (p_data p) =
     {| startIndex := p_startIndex p; endIndex := p_endIndex p |}).
Proof.
  intros Hne Hw Hgap Hsi Hei.
  destruct (createScale_table (p_data p) (p_startIndex p) (p_endIndex p)
              (p_x p) (p_width p) (p_travellerWidth p) Hne)
    as (sv & Hcs & Hlen & Hget).
  destruct (createScale_table_strictly_increasing (p_data p) (p_startIndex p)
              (p_endIndex p) (p_x p) (p_width p) (p_travellerWidth p) Hne Hw)
    as (sv' & Hsv' & Hinc).
  rewrite Hcs in Hsv'. cbn [cs_scaleValues] in Hsv'. injection Hsv' as <-.
  set (sc := mkScale (range 0 (Js.length (p_data p)))
                     (p_x p, (p_x p + p_width p - p_travellerWidth p)%Q)) in *.
  assert (Hon : forall i, 0 <= i < Js.length (p_data p) ->
            exists v, sp_apply sc i = Some v /\ on_track p v).
  { intros i Hi.
    destruct (createScale_coordinate_on_track p i Hne) as (v & Hv & Hon);
      [lra | exact Hi |].
    destruct (createScale_fields (p_data p) i i (p_x p) (p_width p)
                (p_travellerWidth p) Hne) as (_ & Hs & _).
    cbv zeta in Hs. fold sc in Hs. rewrite Hs in Hv. eauto. }
  destruct (Hon _ Hsi) as (a & Ha & Hona).
  destruct (Hon _ Hei) as (b & Hb & Honb).
  pose proof (Hget _ Hsi) as Hga. rewrite Ha in Hga.
  pose proof (Hget _ Hei) as Hgb. rewrite Hb in Hgb.
  destruct (locate_min_max sv _ _ a b Hinc Hga Hgb) as [Hmin Hmax].
  assert (Hwin :
    getIndex a b sv (p_gap p) (p_data p) =
    {| startIndex := Z.min (p_startIndex p) (p_endIndex p)
                     - Z.min (p_startIndex p) (p_endIndex p) mod p_gap p;
       endIndex :=
         if Z.max (p_startIndex p) (p_endIndex p) =? Js.length (p_data p) - 1
         then Z.max (p_startIndex p) (p_endIndex p)
         else Z.max (p_startIndex p) (p_endIndex p)
              - Z.max (p_startIndex p) (p_endIndex p) mod p_gap p |}).
  { unfold getIndex. cbv zeta. rewrite Hmin, Hmax.
    rewrite !rem_is_mod by lia.
    destruct (Z.max (p_startIndex p) (p_endIndex p) =? Js.length (p_data p) - 1)
      eqn:E; [| reflexivity].
    apply Z.eqb_eq in E. now rewrite E. }
  exists sv, {| startX := a; endX := b |}. cbn [startX endX].
  split; [now rewrite Hcs |].
  split.
  { unfold initial_positions. cbv zeta. rewrite Hcs. cbn [cs_scale].
    now rewrite Ha, Hb. }
  split; [exact Hona |]. split; [exact Honb |].
  split.
  { intros Hle. destruct (Z.eq_dec (p_startIndex p) (p_endIndex p)) as [E | E].
    - rewrite E in Hga. rewrite Hga in Hgb. injection Hgb as <-. apply Qle_refl.
    - apply Qlt_le_weak.
      apply (strictly_increasing_get sv _ _ a b Hinc) with (3 := Hgb) (2 := Hga).
      lia. }
  split; [exact Hwin |].
  intros Hg1 Hle. rewrite Hwin, Hg1, !Z.mod_1_r, !Z.sub_0_r.
  rewrite Z.min_l, Z.max_r by lia.
  destruct (p_endIndex p =? Js.length (p_data p) - 1); reflexivity.
Qed.

(** ** More on the pointer handlers *)

Lemma clamped_delta_is_clamp {A : Type} (p : BrushWithStateProps A)
  (prevValue delta : Q) :
  on_track p prevValue ->
  (prevValue + clamped_delta p prevValue delta == clamp_to_track p (prevValue + delta))%Q.
Proof.
  unfold on_track, clamped_delta, clamp_to_track. intros [Hlo Hhi].
  set (hi := (p_x p + p_width p - p_travellerWidth p)%Q) in *.
  destruct (Q.min_spec hi (prevValue + delta)%Q) as [[Hm Em] | [Hm Em]];
    rewrite Em;
    (destruct (Q.max_spec (p_x p) hi) as [[Hx Ex] | [Hx Ex]]);
    (destruct (Q.max_spec (p_x p) (prevValue + delta)%Q) as [[Hy Ey] | [Hy Ey]]);
    try rewrite Ex; try rewrite Ey;
    destruct (Js.ltb 0 delta) eqn:Hpos;
    try (apply js_ltb_true in Hpos); try (apply js_ltb_false in Hpos);
    try (destruct (Q.min_spec delta (hi - prevValue)%Q) as [[Hd Ed] | [Hd Ed]];
         rewrite Ed);
    try (destruct (Js.ltb delta 0) eqn:Hneg;
         [apply js_ltb_true in Hneg;
          destruct (Q.max_spec delta (p_x p - prevValue)%Q) as [[Hd Ed] | [Hd Ed]];
          rewrite Ed
         | apply js_ltb_false in Hneg]);
    lra.
Qed.

(** On pixel values, a pointer move of a traveller drag handled by a render
    that has seen the previous move puts the dragged handle where the
    pointer's displacement since the last event takes it, clamped to the
    track: [max(x, min(x + width - travellerWidth, previous + (pageX -
    last)))]. *)
Theorem traveller_move_follows_pointer_clamped {A : Type}
  (p : BrushWithStateProps A) (scaleValues : list Q) (s : BrushState)
  (pageX : Q) (id : BrushTravellerId) (moveStartX : Q) :
  exact_geometry p -> pixel_value pageX -> pixel_value moveStartX ->
  movingTravellerId s = Some id -> brushMoveStartX s = Some moveStartX ->
  whole_on_track p (position id (travellerPositions s)) ->
  exists s' notes,
    handleTravellerMove p scaleValues s s pageX = Some (s', notes) /\
    (position id (travellerPositions s') ==
     clamp_to_track p (position id (travellerPositions s) + (pageX - moveStartX)))%Q /\
    integral (position id (travellerPositions s')) /\
    brushMoveStartX s' = Some pageX.
Proof.
  intros Hgeo Hpx Hbpx Hid Hb Hon.
  destruct (handleTravellerMove_step p scaleValues s s pageX id moveStartX Hid Hb)
    as (s' & notes & Hrun & _ & _ & _ & Hb' & _ & Hpos & _).
  exists s', notes. split; [exact Hrun |].
  split; [rewrite Hpos; apply clamped_delta_is_clamp; apply Hon |].
  split; [| exact Hb'].
  rewrite Hpos. apply clamped_delta_whole; [exact Hgeo | | exact Hon].
  apply integral_minus; now apply pixel_value_integral.
Qed.

Lemma rem_of_snapped (m gap : Z) :
  0 <= m -> 1 <= gap -> Js.rem (m - Js.rem m gap) gap = 0.
Proof.
  intros Hm Hg. rewrite (rem_is_mod m gap) by lia.
  pose proof (snap_bounds m gap Hm Hg).
  rewrite rem_is_mod by lia.
  destruct (snap_multiple m gap Hg) as [k Hk]. rewrite Hk.
  apply Z.mod_mul. lia.
Qed.

(** The test [isFullGap] hardly ever holds a notification back: the window
    [getIndex] returns is snapped to [gap] already, so with [gap >= 1]
    every pointer move of the end handle, and every pointer move of the
    start handle while the two handles (as the handler's render captured
    them) are apart, calls [onChange] exactly once. *)
Theorem traveller_move_always_notifies {A : Type} (p : BrushWithStateProps A)
  (scaleValues : list Q) (c prev : BrushState) (pageX : Q)
  (id : BrushTravellerId) (moveStartX : Q) :
  1 <= p_gap p ->
  movingTravellerId c = Some id -> brushMoveStartX c = Some moveStartX ->
  id = id_endX \/
  ~ (startX (travellerPositions c) == endX (travellerPositions c))%Q ->
  exists s' w, handleTravellerMove p scaleValues c prev pageX = Some (s', [w]).
Proof.
  intros Hgap Hid Hb Hcase.
  unfold handleTravellerMove. rewrite Hid, Hb. cbv zeta.
  set (sX := startX (travellerPositions c)) in *.
  set (eX := endX (travellerPositions c)) in *.
  assert (Hfull : isFullGap p id sX eX
                    (getIndex sX eX scaleValues (p_gap p) (p_data p)) = true).
  { unfold isFullGap, getIndex. cbv zeta. cbn [startIndex endIndex].
    set (mn := getIndexInRange scaleValues (Qmin sX eX)).
    set (mx := getIndexInRange scaleValues (Qmax sX eX)).
    assert (0 <= mn) as Hmn by apply getIndexInRange_nonneg.
    assert (0 <= mx) as Hmx by apply getIndexInRange_nonneg.
    assert ((Js.rem (mn - Js.rem mn (p_gap p)) (p_gap p) =? 0) = true) as Hs
        by (apply Z.eqb_eq, rem_of_snapped; lia).
    assert ((Js.rem (mx - Js.rem mx (p_gap p)) (p_gap p) =? 0) = true) as He
        by (apply Z.eqb_eq, rem_of_snapped; lia).
    rewrite Hs.
    destruct (mx =? Js.length (p_data p) - 1) eqn:Elast.
    - rewrite Z.eqb_refl, !andb_true_r.
      destruct (Js.ltb sX eX) eqn:L1; destruct (Js.ltb eX sX) eqn:L2;
        destruct id; simpl; rewrite ?orb_true_r; try reflexivity.
      exfalso. apply js_ltb_false in L1. apply js_ltb_false in L2.
      destruct Hcase as [Hc | Hc]; [discriminate | apply Hc; lra].
    - rewrite He. destruct (Js.ltb sX eX); destruct id; simpl;
        rewrite ?orb_true_r; reflexivity. }
  destruct id; cbn [set_param par_startX par_endX]; rewrite Hfull;
    eexists; eexists; reflexivity.
Qed.

(** One pointer move of a slide drag: the handler of a render that recorded
    the start coordinate returns and records the pointer coordinate; the
    drag flags stay as they are. *)
Lemma handleSlideDrag_runs {A : Type} (p : BrushWithStateProps A)
  (scaleValues : list Q) (c prev : BrushState) (pageX moveStartX : Q) :
  slideMoveStartX c = Some moveStartX ->
  exists s' notes,
    handleSlideDrag p scaleValues c prev pageX = Some (s', notes) /\
    slideMoveStartX s' = Some pageX /\
    isSlideMoving s' = isSlideMoving prev /\
    isTravellerMoving s' = isTravellerMoving prev /\
    movingTravellerId s' = movingTravellerId prev /\
    brushMoveStartX s' = brushMoveStartX prev.
Proof.
  intros Hb. unfold handleSlideDrag. rewrite Hb. cbv zeta.
  eexists. eexists. split; [reflexivity |]. cbn. auto 10.
Qed.

Lemma handleSlideDrag_step {A : Type} (p : BrushWithStateProps A)
  (scaleValues : list Q) (s : BrushState) (pageX moveStartX : Q) :
  slideMoveStartX s = Some moveStartX ->
  on_track p (startX (travellerPositions s)) ->
  on_track p (endX (travellerPositions s)) ->
  exists s' notes,
    handleSlideDrag p scaleValues s s pageX = Some (s', notes) /\
    on_track p (startX (travellerPositions s')) /\
    on_track p (endX (travellerPositions s')) /\
    (endX (travellerPositions s') - startX (travellerPositions s') ==
     endX (travellerPositions s) - startX (travellerPositions s))%Q.
Proof.
  intros Hb [Hs1 Hs2] [He1 He2]. unfold handleSlideDrag. rewrite Hb. cbv zeta.
  eexists. eexists. split; [reflexivity |].
  cbn [travellerPositions startX endX slideMoveStartX isSlideMoving
       isTravellerMoving].
  set (sX := startX (travellerPositions s)) in *.
  set (eX := endX (travellerPositions s)) in *.
  set (hi := (p_x p + p_width p - p_travellerWidth p)%Q) in *.
  set (d := (pageX - moveStartX)%Q).
  unfold on_track. fold hi.
  assert (Hd : exists c,
    (if Js.ltb 0 d then Qmin (Qmin d (hi - eX)) (hi - sX)
     else if Js.ltb d 0 then Qmax (Qmax d (p_x p - sX)) (p_x p - eX) else d) = c /\
    (p_x p <= sX + c)%Q /\ (sX + c <= hi)%Q /\
    (p_x p <= eX + c)%Q /\ (eX + c <= hi)%Q).
  { eexists. split; [reflexivity |].
    destruct (Js.ltb 0 d) eqn:Hpos.
    - apply js_ltb_true in Hpos.
      destruct (Q.min_spec d (hi - eX)%Q) as [[H1 E1] | [H1 E1]];
        destruct (Q.min_spec (Qmin d (hi - eX)) (hi - sX)%Q) as [[H2 E2] | [H2 E2]];
        rewrite E2; rewrite ?E1; rewrite E1 in H2; lra.
    - apply js_ltb_false in Hpos.
      destruct (Js.ltb d 0) eqn:Hneg.
      + apply js_ltb_true in Hneg.
        destruct (Q.max_spec d (p_x p - sX)%Q) as [[H1 E1] | [H1 E1]];
          destruct (Q.max_spec (Qmax d (p_x p - sX)) (p_x p - eX)%Q)
            as [[H2 E2] | [H2 E2]];
          rewrite E2; rewrite ?E1; rewrite E1 in H2; lra.
      + apply js_ltb_false in Hneg. lra. }
  destruct Hd as (c & -> & Hc1 & Hc2 & Hc3 & Hc4).
  repeat split; try assumption. ring.
Qed.

(** On pixel values, a pointer move of a slide drag handled by a render
    that has seen the previous move is handled, keeps both handles on the
    track and keeps their distance: both move by the same clamped delta. *)
Theorem slide_drag_keeps_track_and_distance {A : Type} (p : BrushWithStateProps A)
  (scaleValues : list Q) (s : BrushState) (pageX moveStartX : Q) :
  exact_geometry p -> pixel_value pageX -> pixel_value moveStartX ->
  slideMoveStartX s = Some moveStartX ->
  whole_on_track p (startX (travellerPositions s)) ->
  whole_on_track p (endX (travellerPositions s)) ->
  exists s' notes,
    handleSlideDrag p scaleValues s s pageX = Some (s', notes) /\
    on_track p (startX (travellerPositions s')) /\
    on_track p (endX (travellerPositions s')) /\
    (endX (travellerPositions s') - startX (travellerPositions s') ==
     endX (travellerPositions s) - startX (travellerPositions s))%Q.
Proof.
  intros _ _ _ Hb [_ Hs] [_ He].
  exact (handleSlideDrag_step p scaleValues s pageX moveStartX Hb Hs He).
Qed.

(** ** What Slide and TravellerLayer draw *)

(** The rectangle of [Slide] never has a negative width and is the same
    whichever handle is on the left; when the handles are closer than a
    traveller's width its width is 0.  On pixel values, when the handles
    are at least a traveller's width apart, it runs from the right edge of
    the left traveller to the left edge of the right one. *)
Theorem Slide_fills_gap_between_travellers (travellerWidth sX eX : Q) :
  (0 <= Slide_width travellerWidth sX eX)%Q /\
  (Slide_x travellerWidth sX eX == Slide_x travellerWidth eX sX)%Q /\
  (Slide_width travellerWidth sX eX == Slide_width travellerWidth eX sX)%Q /\
  (pixel_value travellerWidth -> pixel_value sX -> pixel_value eX ->
   (travellerWidth <= Qabs (eX - sX))%Q ->
   (Slide_x travellerWidth sX eX + Slide_width travellerWidth sX eX
    == Qmax sX eX)%Q) /\
  ((Qabs (eX - sX) <= travellerWidth)%Q ->
   (Slide_width travellerWidth sX eX == 0)%Q).
Proof.
  unfold Slide_x, Slide_width.
  assert (Habs : (Qabs (eX - sX) == Qmax sX eX - Qmin sX eX)%Q).
  { destruct (Q.max_spec sX eX) as [[H1 ->] | [H1 ->]];
      destruct (Q.min_spec sX eX) as [[H2 ->] | [H2 ->]]; try lra.
    - rewrite Qabs_pos; lra.
    - rewrite Qabs_neg; lra. }
  assert (Hsym : (Qabs (sX - eX) == Qabs (eX - sX))%Q).
  { rewrite <- (Qabs_opp (eX - sX)). apply Qabs_wd. ring. }
  split; [apply Q.le_max_r |].
  split; [rewrite (Q.min_comm sX eX); reflexivity |].
  split; [rewrite Hsym; reflexivity |].
  split.
  - intros _ _ _ H. rewrite Q.max_l by lra. rewrite Habs. ring.
  - intros H. apply Q.max_r. lra.
Qed.

(** ** More on the keyboard handler *)

Lemma keyboard_accepts {A : Type} (p : BrushWithStateProps A)
  (scaleValues : list Q) (s : BrushState) (direction : Direction)
  (id : BrushTravellerId) (i : Z) (v' : Q) :
  Js.indexOf scaleValues (position id (travellerPositions s)) = i ->
  Js.get scaleValues (i + direction_value direction) = Some v' ->
  0 <= i ->
  ~ would_invert id v' (travellerPositions s) ->
  handleTravellerMoveKeyboard p scaleValues s direction id =
  ({| isTravellerMoving := isTravellerMoving s;
      isSlideMoving := isSlideMoving s;
      movingTravellerId := movingTravellerId s;
      brushMoveStartX := brushMoveStartX s;
      slideMoveStartX := slideMoveStartX s;
      travellerPositions := set_position id v' (travellerPositions s) |},
   [getIndex (startX (travellerPositions s)) (endX (travellerPositions s))
             scaleValues (p_gap p) (p_data p)]).
Proof.
  intros Hi Hget H0 Hok. unfold handleTravellerMoveKeyboard. cbv zeta.
  rewrite Hi.
  assert ((i =? -1) = false) as -> by (apply Z.eqb_neq; lia).
  pose proof (js_get_range _ _ _ Hget) as Hj.
  assert ((i + direction_value direction =? -1)
          || (i + direction_value direction >=? Js.length scaleValues) = false)
    as ->.
  { apply orb_false_iff. split; [apply Z.eqb_neq; lia |].
    rewrite Z.geb_leb. apply Z.leb_gt. lia. }
  rewrite Hget.
  destruct (match id with
            | id_startX => Js.leb (endX (travellerPositions s)) v'
            | id_endX => Js.leb v' (startX (travellerPositions s))
            end) eqn:Etest; [| reflexivity].
  exfalso. apply Hok. now apply would_invert_test.
Qed.

Lemma keyboard_keeps_order {A : Type} (p : BrushWithStateProps A)
  (scaleValues : list Q) (s : BrushState) (direction : Direction)
  (id : BrushTravellerId) :
  (startX (travellerPositions s) < endX (travellerPositions s))%Q ->
  let s' := fst (handleTravellerMoveKeyboard p scaleValues s direction id) in
  (startX (travellerPositions s') < endX (travellerPositions s'))%Q.
Proof.
  intros Hlt. cbv zeta. unfold handleTravellerMoveKeyboard. cbv zeta.
  destruct (_ =? -1); [exact Hlt |].
  destruct (_ || _); [exact Hlt |].
  destruct (Js.get scaleValues _) as [v |]; [| exact Hlt].
  destruct id.
  - destruct (Js.leb (endX (travellerPositions s)) v) eqn:E; [exact Hlt |].
    cbn. unfold Js.leb in E.
    apply Qnot_le_lt. intros H. apply Qle_bool_iff in H. congruence.
  - destruct (Js.leb v (startX (travellerPositions s))) eqn:E; [exact Hlt |].
    cbn. unfold Js.leb in E.
    apply Qnot_le_lt. intros H. apply Qle_bool_iff in H. congruence.
Qed.

(** The keyboard never brings the handles together or swaps them: if the
    start handle is left of the end handle, it still is after any sequence
    of arrow presses on either handle, whatever the table holds. *)
Theorem keyboard_never_inverts {A : Type} (p : BrushWithStateProps A)
  (scaleValues : list Q) (presses : list (Direction * BrushTravellerId)) :
  forall s,
    (startX (travellerPositions s) < endX (travellerPositions s))%Q ->
    let s' := key_presses p scaleValues s presses in
    (startX (travellerPositions s') < endX (travellerPositions s'))%Q.
Proof.
  induction presses as [| [direction id] rest IH]; intros s Hlt.
  - exact Hlt.
  - cbn [key_presses]. apply IH. now apply keyboard_keeps_order.
Qed.

Lemma direction_there_and_back (d : Direction) (i : Z) :
  i + direction_value d + direction_value (opposite d) = i.
Proof. destruct d; simpl; lia. Qed.

(** On a strictly increasing table, with the start handle left of the end
    handle: an arrow press that is accepted, followed by the opposite arrow
    on the same handle, brings the handle back to the coordinate it came
    from and leaves the other handle untouched. *)
Theorem keyboard_move_and_back {A : Type} (p : BrushWithStateProps A)
  (scaleValues : list Q) (s : BrushState) (direction : Direction)
  (id : BrushTravellerId) (i : Z) (v v' : Q) :
  strictly_increasing scaleValues ->
  (startX (travellerPositions s) < endX (travellerPositions s))%Q ->
  Js.get scaleValues i = Some v ->
  (position id (travellerPositions s) == v)%Q ->
  Js.get scaleValues (i + direction_value direction) = Some v' ->
  ~ would_invert id v' (travellerPositions s) ->
  let s1 := fst (handleTravellerMoveKeyboard p scaleValues s direction id) in
  let s2 := fst (handleTravellerMoveKeyboard p scaleValues s1 (opposite direction) id) in
  position id (travellerPositions s1) = v' /\
  position id (travellerPositions s2) = v /\
  position (other_id id) (travellerPositions s2) =
    position (other_id id) (travellerPositions s).
Proof.
  intros Hinc Hlt Hget Hpos Hget' Hok. cbv zeta.
  pose proof (js_get_range _ _ _ Hget) as Hi.
  rewrite (keyboard_accepts p scaleValues s direction id i v');
    [| now apply (indexOf_strictly_increasing scaleValues i v) | exact Hget'
     | lia | exact Hok].
  cbn [fst].
  set (s1 := {| isTravellerMoving := isTravellerMoving s;
                isSlideMoving := isSlideMoving s;
                movingTravellerId := movingTravellerId s;
                brushMoveStartX := brushMoveStartX s;
                slideMoveStartX := slideMoveStartX s;
                travellerPositions := set_position id v' (travellerPositions s) |}).
  assert (position id (travellerPositions s1) = v') as Hp1
      by (destruct id; reflexivity).
  assert (position (other_id id) (travellerPositions s1)
          = position (other_id id) (travellerPositions s)) as Ho1
      by (destruct id; reflexivity).
  pose proof (js_get_range _ _ _ Hget') as Hj.
  rewrite (keyboard_accepts p scaleValues s1 (opposite direction) id
             (i + direction_value direction) v).
  - cbn [fst travellerPositions]. split; [exact Hp1 |].
    split; destruct id; reflexivity.
  - rewrite Hp1.
    apply (indexOf_strictly_increasing scaleValues _ v' v' Hinc Hget').
    reflexivity.
  - now rewrite direction_there_and_back.
  - lia.
  - destruct id; cbn in *; lra.
Qed.

(** ** The handlers together *)


Lemma keyboard_step_well_formed {A : Type} (p : BrushWithStateProps A)
  (scaleValues : list Q) (s : BrushState) (direction : Direction)
  (id : BrushTravellerId) :
  well_formed s ->
  well_formed (fst (handleTravellerMoveKeyboard p scaleValues s direction id)).
Proof.
  intros Hwf. unfold handleTravellerMoveKeyboard. cbv zeta.
  destruct (_ =? -1); [exact Hwf |].
  destruct (_ || _); [exact Hwf |].
  destruct (Js.get scaleValues _) as [v |] eqn:Hget; [| exact Hwf].
  destruct (match id with
            | id_startX => Js.leb (endX (travellerPositions s)) v
            | id_endX => Js.leb v (startX (travellerPositions s))
            end); exact Hwf.
Qed.

Lemma handleEvent_well_formed {A : Type} (p : BrushWithStateProps A)
  (scaleValues : list Q) (hasOnDragEnd : bool) (m : Mounted) (ev : BrushEvent) :
  well_formed (captured m) -> well_formed (current m) ->
  exists m' changes ends,
    handleEvent p scaleValues hasOnDragEnd m ev = Some (m', changes, ends) /\
    well_formed (captured m') /\ well_formed (current m').
Proof.
  intros Hc Hwf. destruct m as [c s]. cbn [captured current] in *.
  destruct ev as [id pageX | pageX | pageX | | key id |];
    cbn [handleEvent current captured].
  - eexists. eexists. eexists. split; [reflexivity |].
    assert (well_formed (handleTravellerDragStart id pageX s)) as H.
    { unfold well_formed, handleTravellerDragStart.
      cbn [isTravellerMoving isSlideMoving movingTravellerId brushMoveStartX
           slideMoveStartX andb].
      split; [intros _; split; discriminate |].
      split; [discriminate | reflexivity]. }
    split; exact H.
  - eexists. eexists. eexists. split; [reflexivity |].
    assert (well_formed (handleSlideDragStart pageX s)) as H.
    { unfold well_formed, handleSlideDragStart.
      cbn [isTravellerMoving isSlideMoving movingTravellerId brushMoveStartX
           slideMoveStartX andb].
      split; [discriminate |]. split; [intros _; discriminate | reflexivity]. }
    split; exact H.
  - unfold handleDrag.
    destruct Hc as (C1 & C2 & C3). destruct Hwf as (H1 & H2 & H3).
    destruct (isTravellerMoving c) eqn:Et.
    + destruct (C1 eq_refl) as [Hid Hb].
      destruct (movingTravellerId c) as [id |] eqn:Eid; [| congruence].
      destruct (brushMoveStartX c) as [b |] eqn:Eb; [| congruence].
      destruct (handleTravellerMove_step p scaleValues c s pageX id b Eid Eb)
        as (s' & notes & Hrun & Ht' & Hsl' & Hid' & Hb' & Hss' & _ & _).
      rewrite Hrun. eexists. exists notes, []. split; [reflexivity |].
      cbn [captured current].
      split; [unfold well_formed; rewrite Et, Eid, Eb; auto |].
      unfold well_formed. rewrite Ht', Hsl', Hid', Hb', Hss'.
      split; [| split; [exact H2 | exact H3]].
      intros Ht. split; [apply (H1 Ht) | discriminate].
    + destruct (isSlideMoving c) eqn:Es.
      * destruct (slideMoveStartX c) as [b |] eqn:Eb;
          [| exfalso; now apply (C2 eq_refl)].
        destruct (handleSlideDrag_runs p scaleValues c s pageX b Eb)
          as (s' & notes & Hrun & Hb' & Hsl' & Ht' & Hid' & Hbm').
        rewrite Hrun. eexists. exists notes, []. split; [reflexivity |].
        cbn [captured current].
        split; [unfold well_formed; rewrite Et, Es, Eb; auto |].
        unfold well_formed. rewrite Ht', Hsl', Hid', Hb', Hbm'.
        split; [exact H1 |]. split; [intros _; discriminate | exact H3].
      * eexists. eexists. eexists. split; [reflexivity |].
        cbn [captured current].
        split; [unfold well_formed; rewrite Et, Es; auto | ].
        unfold well_formed. auto.
  - destruct (isSlideMoving s || isTravellerMoving s).
    + eexists. eexists. eexists. split; [reflexivity |].
      assert (well_formed (fst (handleDragEnd p hasOnDragEnd s))) as H.
      { unfold well_formed, handleDragEnd.
        cbn [fst isTravellerMoving isSlideMoving andb].
        split; [discriminate |]. split; [discriminate | reflexivity]. }
      split; exact H.
    + eexists. eexists. eexists. split; [reflexivity |]. split; exact Hwf.
  - destruct (onKeyDown key) as [direction |].
    + pose proof (keyboard_step_well_formed p scaleValues s direction id Hwf)
        as Hk.
      destruct (handleTravellerMoveKeyboard p scaleValues s direction id)
        as [s' changes].
      eexists. eexists. eexists. split; [reflexivity |]. split; exact Hk.
    + eexists. eexists. eexists. split; [reflexivity |]. split; exact Hwf.
  - eexists. eexists. eexists. split; [reflexivity |]. split; exact Hwf.
Qed.

(** Whatever the user does and whenever React renders, the drag flags stay
    in order.  From a brush whose captured and current state are
    well-formed, any sequence of presses, pointer moves (with or without a
    render between them), releases and keys is handled to the end (no
    handler reads a drag start or a handle that was never recorded) and
    leaves such a brush: the two drag flags are never both set, and a
    running drag always has its start recorded. *)
Theorem events_keep_brush_well_formed {A : Type} (p : BrushWithStateProps A)
  (scaleValues : list Q) (hasOnDragEnd : bool) (evs : list BrushEvent) :
  forall m, well_formed (captured m) -> well_formed (current m) ->
    exists m' changes ends,
      handleEvents p scaleValues hasOnDragEnd m evs = Some (m', changes, ends) /\
      well_formed (captured m') /\ well_formed (current m').
Proof.
  induction evs as [| ev rest IH]; intros m Hc Hwf.
  - exists m, [], []. split; [reflexivity |]. split; assumption.
  - destruct (handleEvent_well_formed p scaleValues hasOnDragEnd m ev Hc Hwf)
      as (m1 & c1 & e1 & Hrun1 & Hc1 & Hwf1).
    destruct (IH m1 Hc1 Hwf1) as (m2 & c2 & e2 & Hrun2 & Hwf2).
    exists m2, (c1 ++ c2), (e1 ++ e2). cbn [handleEvents].
    rewrite Hrun1, Hrun2. split; [reflexivity | exact Hwf2].
Qed.

Lemma idle_moves_ignored {A : Type} (p : BrushWithStateProps A)
  (scaleValues : list Q) (hasOnDragEnd : bool) (s : BrushState) (moves : list Q) :
  isTravellerMoving s = false -> isSlideMoving s = false ->
  handleEvents p scaleValues hasOnDragEnd (rendered s) (map PointerMove moves)
  = Some (rendered s, [], []).
Proof.
  intros Ht Hs. induction moves as [| pageX rest IH]; [reflexivity |].
  cbn [map handleEvents handleEvent rendered captured current].
  unfold handleDrag. rewrite Ht, Hs.
  change {| captured := s; current := s |} with (rendered s).
  rewrite IH. reflexivity.
Qed.

(** A release ends the drag: once [mouseup] / [touchend] arrives during a
    drag, [onDragEnd] (when given) is called once, with the window of the
    props, and the pointer moves that follow move no handle and call
    [onChange] not at all. *)
Theorem release_ends_drag {A : Type} (p : BrushWithStateProps A)
  (scaleValues : list Q) (hasOnDragEnd : bool) (m : Mounted) (moves : list Q) :
  isTravellerMoving (current m) = true \/ isSlideMoving (current m) = true ->
  exists s',
    handleEvents p scaleValues hasOnDragEnd m (PointerUp :: map PointerMove moves)
    = Some (rendered s', [],
            if hasOnDragEnd
            then [{| startIndex := p_startIndex p; endIndex := p_endIndex p |}]
            else []) /\
    travellerPositions s' = travellerPositions (current m) /\
    isTravellerMoving s' = false /\ isSlideMoving s' = false.
Proof.
  intros Hdrag.
  assert (isSlideMoving (current m) || isTravellerMoving (current m) = true)
    as Hflag.
  { apply orb_true_iff. tauto. }
  eexists. cbn [handleEvents handleEvent]. rewrite Hflag.
  unfold handleDragEnd. rewrite idle_moves_ignored by reflexivity.
  destruct hasOnDragEnd; cbn [app]; (split; [reflexivity |]); auto.
Qed.

(** Moving the positions to the right never moves the window to the left:
    with one coordinate per data index and [gap >= 1], if both positions
    grow (or stay), so do both indices of the window. *)
Theorem getIndex_monotone {A : Type} (data : list A) (gap : Z)
  (scaleValues : list Q) (a b a' b' : Q) :
  1 <= gap -> scaleValues <> [] ->
  List.length scaleValues = List.length data ->
  (a <= a')%Q -> (b <= b')%Q ->
  startIndex (getIndex a b scaleValues gap data)
  <= startIndex (getIndex a' b' scaleValues gap data) /\
  endIndex (getIndex a b scaleValues gap data)
  <= endIndex (getIndex a' b' scaleValues gap data).
Proof.
  intros Hgap Hne Hlen Ha Hb. unfold getIndex. cbv zeta.
  cbn [startIndex endIndex].
  assert (Qmin a b <= Qmin a' b')%Q as Hmin by (apply Q.min_le_compat; assumption).
  assert (Qmax a b <= Qmax a' b')%Q as Hmax by (apply Q.max_le_compat; assumption).
  pose proof (getIndexInRange_mono_le scaleValues _ _ Hmin) as Hmn.
  pose proof (getIndexInRange_mono_le scaleValues _ _ Hmax) as Hmx.
  pose proof (getIndexInRange_bounds scaleValues (Qmin a b) Hne) as B1.
  pose proof (getIndexInRange_bounds scaleValues (Qmin a' b') Hne) as B2.
  pose proof (getIndexInRange_bounds scaleValues (Qmax a b) Hne) as B3.
  pose proof (getIndexInRange_bounds scaleValues (Qmax a' b') Hne) as B4.
  set (mn := getIndexInRange scaleValues (Qmin a b)) in *.
  set (mn' := getIndexInRange scaleValues (Qmin a' b')) in *.
  set (mx := getIndexInRange scaleValues (Qmax a b)) in *.
  set (mx' := getIndexInRange scaleValues (Qmax a' b')) in *.
  assert (Js.length scaleValues = Js.length data) as HL
      by (unfold Js.length; now rewrite Hlen).
  rewrite HL in *. rewrite !rem_is_mod by lia.
  pose proof (snap_monotone mn mn' gap Hgap Hmn).
  pose proof (snap_monotone mx mx' gap Hgap Hmx).
  pose proof (snap_bounds mx gap (proj1 B3) Hgap).
  pose proof (snap_bounds mx' gap (proj1 B4) Hgap).
  split; [assumption |].
  set (smx := mx - mx mod gap) in *. set (smx' := mx' - mx' mod gap) in *.
  clearbody smx smx' mx mx'.
  destruct (Z.eqb_spec mx (Js.length data - 1));
    destruct (Z.eqb_spec mx' (Js.length data - 1)); lia.
Qed.

(** A traveller is drawn where its position says: for a position on the
    track [TravellerLayer] uses it unchanged, and a position that is still
    [undefined] is drawn at [max(0, x)], never left of the brush. *)
Theorem TravellerLayer_draws_at_position {A : Type} (p : BrushWithStateProps A)
  (v : Q) :
  (on_track p v -> (TravellerLayer_x (Some v) (p_x p) == v)%Q) /\
  (p_x p <= TravellerLayer_x None (p_x p))%Q /\
  (p_x p <= TravellerLayer_x (Some v) (p_x p))%Q.
Proof.
  unfold TravellerLayer_x, on_track. split; [| split].
  - intros [Hlo _]. apply Q.max_l. exact Hlo.
  - apply Q.le_max_r.
  - apply Q.le_max_r.
Qed.

(** ** These properties at concrete inputs *)

Lemma getIndexInRange_sorted_greatest_at_most_witness :
  3 <= getIndexInRange six_points_table (700 # 1).
Proof.
  destruct (getIndexInRange_sorted_greatest_at_most six_points_table (700 # 1))
    as [H _].
  - discriminate.
  - exact six_points_table_non_decreasing.
  - apply (H 3 (620 # 1)); [reflexivity | unfold Qle; simpl; lia].
Defined.

Lemma getIndexInRange_locates_cell_witness :
  getIndexInRange six_points_table (500 # 1) = 2.
Proof.
  destruct (getIndexInRange_locates_cell six_points_table 2 (435 # 1))
    as [H _].
  - exact six_points_table_non_decreasing.
  - reflexivity.
  - apply (H (500 # 1) (620 # 1)); [reflexivity | unfold Qle; simpl; lia |].
    reflexivity.
Defined.

Lemma getIndexInRange_outside_table_witness :
  getIndexInRange [5 # 1; 3 # 1; 9 # 1] (1 # 1) = 0.
Proof.
  destruct (getIndexInRange_outside_table [5 # 1; 3 # 1; 9 # 1] (1 # 1))
    as [H _].
  - discriminate.
  - apply H. intros j v Hget. apply get_In in Hget. simpl in Hget.
    destruct Hget as [<- | [<- | [<- | []]]]; reflexivity.
Defined.

Lemma getIndexInRange_logarithmic_passes_witness :
  exists b, while_loop 3 six_points_table (500 # 1) (0, 5) = Some b /\
            loop_cond b = false.
Proof.
  destruct (getIndexInRange_logarithmic_passes six_points_table (500 # 1) 3)
    as (b & Hrun & Hcond & _).
  - unfold Js.length, six_points_table. simpl. lia.
  - exists b. split; [exact Hrun | exact Hcond].
Defined.

Lemma createScale_position_defined_iff_index_valid_witness :
  cs_startX (createScale (Some [tt; tt; tt; tt]) 7 3 0 (35 # 1) (5 # 1)) = None.
Proof.
  destruct (createScale_position_defined_iff_index_valid [tt; tt; tt; tt] 7 3
              0 (35 # 1) (5 # 1)) as [[H _] _].
  - discriminate.
  - destruct (cs_startX (createScale (Some [tt; tt; tt; tt]) 7 3 0 (35 # 1) (5 # 1)))
      as [v |] eqn:E; [| reflexivity].
    assert (0 <= 7 < Js.length [tt; tt; tt; tt]) as Hbad by (apply H; discriminate).
    unfold Js.length in Hbad. simpl in Hbad. lia.
Defined.

Lemma createScale_table_sorted_on_track_witness :
  exists sv,
    cs_scaleValues (createScale (Some (p_data four_points)) 0 3 0 (35 # 1) (5 # 1))
    = Some sv /\ strictly_increasing sv.
Proof.
  destruct (createScale_table_sorted_on_track four_points)
    as (sv & Hsv & _ & Hinc & _).
  - discriminate.
  - reflexivity.
  - exists sv. split; [exact Hsv | exact Hinc].
Defined.

Lemma initial_positions_give_back_indices_witness :
  exists sv tp,
    initial_positions four_points = Some tp /\
    getIndex (startX tp) (endX tp) sv 1 [tt; tt; tt; tt] =
    {| startIndex := 0; endIndex := 3 |}.
Proof.
  destruct (initial_positions_give_back_indices four_points)
    as (sv & tp & _ & Hinit & _ & _ & _ & _ & Hwin).
  - discriminate.
  - reflexivity.
  - unfold four_points. simpl. lia.
  - unfold Js.length, four_points. simpl. lia.
  - unfold Js.length, four_points. simpl. lia.
  - exists sv, tp. split; [exact Hinit |].
    apply Hwin; unfold four_points; simpl; lia.
Defined.

Lemma pixel_value_500 : pixel_value (500 # 1).
Proof. exists 500. split; [reflexivity | vm_compute; discriminate]. Qed.

Lemma traveller_move_follows_pointer_clamped_witness :
  exists s' notes,
    handleTravellerMove four_points four_points_table
      (handleTravellerDragStart id_endX (30 # 1) four_points_idle)
      (handleTravellerDragStart id_endX (30 # 1) four_points_idle) (500 # 1)
    = Some (s', notes) /\
    (endX (travellerPositions s') ==
     clamp_to_track four_points ((30 # 1) + ((500 # 1) - (30 # 1))))%Q.
Proof.
  destruct (traveller_move_follows_pointer_clamped four_points four_points_table
              (handleTravellerDragStart id_endX (30 # 1) four_points_idle)
              (500 # 1) id_endX (30 # 1))
    as (s' & notes & Hrun & Hpos & _).
  - exact four_points_exact.
  - exact pixel_value_500.
  - exact pixel_value_30.
  - reflexivity.
  - reflexivity.
  - apply four_points_idle_whole_on_track.
  - exists s', notes. split; [exact Hrun | exact Hpos].
Defined.

Lemma traveller_move_always_notifies_witness :
  exists s' w,
    handleTravellerMove four_points four_points_table
      (handleTravellerDragStart id_startX 0 four_points_idle)
      (handleTravellerDragStart id_startX 0 four_points_idle) (7 # 1)
    = Some (s', [w]).
Proof.
  apply (traveller_move_always_notifies four_points four_points_table
           (handleTravellerDragStart id_startX 0 four_points_idle)
           (handleTravellerDragStart id_startX 0 four_points_idle)
           (7 # 1) id_startX 0).
  - unfold four_points. simpl. lia.
  - reflexivity.
  - reflexivity.
  - right. simpl. intros H. discriminate H.
Defined.

Lemma slide_drag_keeps_track_and_distance_witness :
  exists s' notes,
    handleSlideDrag four_points four_points_table
      (handleSlideDragStart (10 # 1) four_points_idle)
      (handleSlideDragStart (10 # 1) four_points_idle) (500 # 1)
    = Some (s', notes) /\
    on_track four_points (endX (travellerPositions s')).
Proof.
  destruct (slide_drag_keeps_track_and_distance four_points four_points_table
              (handleSlideDragStart (10 # 1) four_points_idle) (500 # 1) (10 # 1))
    as (s' & notes & Hrun & _ & Hon & _).
  - exact four_points_exact.
  - exact pixel_value_500.
  - exact pixel_value_10.
  - reflexivity.
  - apply four_points_idle_whole_on_track.
  - apply four_points_idle_whole_on_track.
  - exists s', notes. split; [exact Hrun | exact Hon].
Defined.

Lemma Slide_fills_gap_between_travellers_witness :
  (Slide_x (5 # 1) (30 # 1) 0 + Slide_width (5 # 1) (30 # 1) 0 == 30 # 1)%Q.
Proof.
  destruct (Slide_fills_gap_between_travellers (5 # 1) (30 # 1) 0)
    as (_ & _ & _ & H & _).
  apply H.
  - exists 5. split; [reflexivity | vm_compute; discriminate].
  - exact pixel_value_30.
  - exact pixel_value_0.
  - unfold Qle; simpl; lia.
Defined.

Lemma keyboard_never_inverts_witness :
  let s' := key_presses four_points four_points_table four_points_idle
              [(ArrowRight, id_startX); (ArrowRight, id_startX);
               (ArrowRight, id_startX); (ArrowLeft, id_endX)] in
  (startX (travellerPositions s') < endX (travellerPositions s'))%Q.
Proof.
  apply (keyboard_never_inverts four_points four_points_table
           [(ArrowRight, id_startX); (ArrowRight, id_startX);
            (ArrowRight, id_startX); (ArrowLeft, id_endX)] four_points_idle).
  reflexivity.
Defined.

Lemma keyboard_move_and_back_witness :
  let s1 := fst (handleTravellerMoveKeyboard four_points four_points_table
                   four_points_idle ArrowLeft id_endX) in
  let s2 := fst (handleTravellerMoveKeyboard four_points four_points_table
                   s1 ArrowRight id_endX) in
  endX (travellerPositions s1) = 20 # 1 /\ endX (travellerPositions s2) = 30 # 1.
Proof.
  destruct (keyboard_move_and_back four_points four_points_table four_points_idle
              ArrowLeft id_endX 3 (30 # 1) (20 # 1)) as (H1 & H2 & _).
  - exact four_points_table_strictly_increasing.
  - reflexivity.
  - reflexivity.
  - reflexivity.
  - reflexivity.
  - unfold would_invert, Qle. simpl. lia.
  - split; [exact H1 | exact H2].
Defined.


Lemma four_points_idle_well_formed : well_formed four_points_idle.
Proof.
  unfold well_formed. cbn [four_points_idle isTravellerMoving isSlideMoving andb].
  split; [discriminate |]. split; [discriminate | reflexivity].
Qed.

Lemma events_keep_brush_well_formed_witness :
  exists m' changes ends,
    handleEvents four_points four_points_table true (rendered four_points_idle)
      [TravellerDown id_endX (30 # 1); PointerMove (10 # 1); PointerMove 0;
       Render; KeyDown "ArrowRight" id_startX; SlideDown (5 # 1);
       PointerMove (90 # 1); PointerUp; PointerMove (3 # 1)]
    = Some (m', changes, ends) /\
    well_formed (captured m') /\ well_formed (current m').
Proof.
  apply (events_keep_brush_well_formed four_points four_points_table true).
  - exact four_points_idle_well_formed.
  - exact four_points_idle_well_formed.
Defined.

Lemma release_ends_drag_witness :
  exists s',
    handleEvents four_points four_points_table true
      (rendered (handleSlideDragStart (15 # 1) four_points_idle))
      (PointerUp :: map PointerMove [20 # 1; 25 # 1])
    = Some (rendered s', [], [{| startIndex := 0; endIndex := 3 |}]) /\
    travellerPositions s' = travellerPositions four_points_idle.
Proof.
  destruct (release_ends_drag four_points four_points_table true
              (rendered (handleSlideDragStart (15 # 1) four_points_idle))
              [20 # 1; 25 # 1])
    as (s' & Hrun & Hpos & _).
  - right. reflexivity.
  - exists s'. split; [exact Hrun | exact Hpos].
Defined.

Lemma getIndex_monotone_witness :
  endIndex (getIndex 0 (300 # 1) six_points_table 2 [tt; tt; tt; tt; tt; tt])
  <= endIndex (getIndex (100 # 1) (700 # 1) six_points_table 2
                        [tt; tt; tt; tt; tt; tt]).
Proof.
  destruct (getIndex_monotone [tt; tt; tt; tt; tt; tt] 2 six_points_table
              0 (300 # 1) (100 # 1) (700 # 1)) as [_ H].
  - lia.
  - discriminate.
  - reflexivity.
  - unfold Qle; simpl; lia.
  - unfold Qle; simpl; lia.
  - exact H.
Defined.

Lemma TravellerLayer_draws_at_position_witness :
  (TravellerLayer_x (Some (30 # 1)) (p_x four_points) == 30 # 1)%Q.
Proof.
  destruct (TravellerLayer_draws_at_position four_points (30 # 1)) as [H _].
  apply H. apply four_points_idle_on_track.
Defined.

